(** * poke_db/pokemon_csv.py: evolution chains, the cache and the CSV run

    A shallow embedding of [src/poke_db/pokemon_csv.py].  The script
    downloads the first 151 species from a REST API, flattens each
    evolution-chain tree into a dictionary, memoises that dictionary per
    chain URL and writes one CSV row per species.

    - Python dictionaries keyed by strings are [gmap string _];
    - exceptions are values of [error], threaded by a state-and-error monad
      that keeps the state reached when the exception was raised;
    - the network is a parameter of the run (a [world]); every call of
      [fetch_data] is recorded in the state, so that the number of requests
      can be counted;
    - a Python float is a binary64 number, written as a significand and an
      exponent; [int / int] rounds the exact quotient to the nearest one and
      raises when it is too large;
    - a string is the sequence of bytes of its UTF-8 encoding, a lone
      surrogate being encoded like any other code point, so that the strings
      the codec of the output file refuses can be told apart. *)

From Stdlib Require Import ZArith String Ascii List Lia.
From Stdlib Require Import Floats.PrimFloat Floats.FloatOps.
From Stdlib Require Import Numbers.Cyclic.Int63.Uint63.
From Stdlib Require Import DecimalString DecimalPos DecimalZ.
From stdpp Require Import gmap strings list fin_maps.

Set Warnings "-register-all,-inexact-float".
Local Open Scope string_scope.
Local Open Scope list_scope.

(* ===================================================================== *)
(** ** Evolution chains *)
(* ===================================================================== *)

(** A node of the JSON tree below ["chain"]: [current["species"]["name"]]
    and [current["evolves_to"]]. *)
Inductive chain_link : Type :=
  ChainLink (species_name : string) (evolves_to : list chain_link).

Definition species (c : chain_link) : string :=
  match c with ChainLink n _ => n end.

Definition evolves_to (c : chain_link) : list chain_link :=
  match c with ChainLink _ l => l end.

(** The value stored per species: [{"from": previous, "to": [...]}]. *)
Record evo_entry : Type := EvoEntry {
  evo_from : option string;
  evo_to : list string
}.

(** [entry["to"].append(evo_name)] *)
Definition append_to (evo_name : string) (e : evo_entry) : evo_entry :=
  {| evo_from := evo_from e; evo_to := evo_to e ++ [evo_name] |}.

(** [recurse_chain(current, previous)], with the enclosing [evo_dict]
    passed explicitly.  The statement
    [evo_dict[species_name]["to"].append(evo_name)] reads the entry that is
    stored under [species_name] at that moment, which is what [alter] does
    (the key is always present there, see [recurse_chain_keeps]). *)
Fixpoint recurse_chain (current : chain_link) (previous : option string)
    (evo_dict : gmap string evo_entry) : gmap string evo_entry :=
  match current with
  | ChainLink species_name evos =>
      fold_left
        (fun evo_dict evo =>
           let evo_name := species evo in
           recurse_chain evo (Some species_name)
             (alter (append_to evo_name) species_name evo_dict))
        evos
        (<[species_name := {| evo_from := previous; evo_to := [] |}]> evo_dict)
  end.

(** One iteration of the loop over [current["evolves_to"]]. *)
Definition visit (species_name : string) (evo_dict : gmap string evo_entry)
    (evo : chain_link) : gmap string evo_entry :=
  recurse_chain evo (Some species_name)
    (alter (append_to (species evo)) species_name evo_dict).

(** [parse_evolution_chain(chain)]; the argument is [chain["chain"]]. *)
Definition parse_evolution_chain (chain : chain_link) : gmap string evo_entry :=
  recurse_chain chain None ∅.

(** *** Nodes, addressed by their position *)

(** The node reached from [t] by following child indices. *)
Fixpoint subtree (t : chain_link) (path : list nat) : option chain_link :=
  match path with
  | [] => Some t
  | i :: path' =>
      match evolves_to t !! i with
      | Some c => subtree c path'
      | None => None
      end
  end.

(** All species names of a tree, in depth-first order. *)
Fixpoint species_names (t : chain_link) : list string :=
  match t with
  | ChainLink n evos => n :: flat_map species_names evos
  end.

(** The name is borne by exactly one node of the tree. *)
Definition unique_name (t : chain_link) (k : string) : Prop :=
  count_occ string_dec (species_names t) k = 1.

(** The name of the parent of the node at [path], [previous] above the root. *)
Fixpoint predecessor (t : chain_link) (previous : option string)
    (path : list nat) : option string :=
  match path with
  | [] => previous
  | i :: path' =>
      match evolves_to t !! i with
      | Some c => predecessor c (Some (species t)) path'
      | None => None
      end
  end.

(** *** The traversal with its calls recorded

    The same function, with the position of [current] appended to a log at
    every call; the log is not part of the program and only serves to count
    the calls. *)
Definition visit_children
    (recurse : chain_link -> option string -> list nat ->
               gmap string evo_entry * list (list nat) ->
               gmap string evo_entry * list (list nat))
    (species_name : string) (path : list nat) :
    nat -> list chain_link ->
    gmap string evo_entry * list (list nat) ->
    gmap string evo_entry * list (list nat) :=
  fix loop i evos st :=
    match evos with
    | [] => st
    | evo :: rest =>
        loop (S i) rest
          (recurse evo (Some species_name) (path ++ [i])
             (alter (append_to (species evo)) species_name (fst st), snd st))
    end.

Fixpoint recurse_chain_traced (current : chain_link) (previous : option string)
    (path : list nat) (st : gmap string evo_entry * list (list nat)) :
    gmap string evo_entry * list (list nat) :=
  match current with
  | ChainLink species_name evos =>
      visit_children recurse_chain_traced species_name path 0 evos
        (<[species_name := {| evo_from := previous; evo_to := [] |}]> (fst st),
         snd st ++ [path])
  end.

(** The positions of a tree, in depth-first order. *)
Definition child_paths (paths : chain_link -> list (list nat)) :
    nat -> list chain_link -> list (list nat) :=
  fix loop i evos :=
    match evos with
    | [] => []
    | evo :: rest => map (cons i) (paths evo) ++ loop (S i) rest
    end.

Fixpoint all_paths (t : chain_link) : list (list nat) :=
  match t with
  | ChainLink _ evos => [] :: child_paths all_paths 0 evos
  end.

(** The properties the specification states for the parser. *)
Definition to_lists_children (t : chain_link) : Prop :=
  forall path n, subtree t path = Some n ->
    evo_to <$> parse_evolution_chain t !! species n
    = Some (map species (evolves_to n)).

Definition from_is_parent (t : chain_link) : Prop :=
  evo_from <$> parse_evolution_chain t !! species t = Some None /\
  forall path i parent n,
    subtree t path = Some parent ->
    subtree t (path ++ [i]) = Some n ->
    evo_from <$> parse_evolution_chain t !! species n
    = Some (Some (species parent)).

Definition bulbasaur_chain : chain_link :=
  ChainLink "bulbasaur" [ChainLink "ivysaur" [ChainLink "venusaur" []]].

Definition eevee_chain : chain_link :=
  ChainLink "eevee"
    [ChainLink "vaporeon" []; ChainLink "jolteon" []; ChainLink "flareon" []].


(* ===================================================================== *)
(** ** Payloads *)
(* ===================================================================== *)

(** One element of [species_data["flavor_text_entries"]]:
    [entry["language"]["name"]], [entry["version"]["name"]] and
    [entry["flavor_text"]]. *)
Record flavor_text_entry : Type := FlavorTextEntry {
  language : string;
  version : string;
  flavor_text : string
}.

(** The part of a Pokemon payload the script reads.  [pd_types] holds
    [t["type"]["name"]] for each element of ["types"], [pd_stats] the pairs
    [(s["stat"]["name"], s["base_stat"])] of ["stats"], [pd_height] and
    [pd_weight] the integers at ["height"] (decimetres) and ["weight"]
    (hectograms), [pd_front_default] the value at
    ["sprites"]["other"]["official-artwork"]["front_default"] ([None] for
    JSON null) and [pd_species_url] the one at ["species"]["url"]. *)
Record pokemon_data : Type := PokemonData {
  pd_name : string;
  pd_types : list string;
  pd_stats : list (string * Z);
  pd_height : Z;
  pd_weight : Z;
  pd_front_default : option string;
  pd_species_url : string
}.

(** The part of a species payload the script reads; [sd_evolution_chain_url]
    is [species_data["evolution_chain"]["url"]]. *)
Record species_data : Type := SpeciesData {
  sd_flavor_text_entries : list flavor_text_entry;
  sd_evolution_chain_url : string
}.

(* ===================================================================== *)
(** ** Exceptions, the network and the state of a run *)
(* ===================================================================== *)

Inductive error : Type :=
  | HTTPError (url : string)   (* fetch_data: the request or its decoding failed *)
  | IndexError                 (* list index out of range *)
  | KeyError (key : string)    (* missing dictionary key *)
  | ValueError                 (* DictWriter: a key outside fieldnames *)
  | OverflowError              (* int / int: the quotient is too large *)
  | UnicodeEncodeError.        (* the output file: a string with a surrogate *)

Inductive result (A : Type) : Type :=
  | Ok (a : A)
  | Raise (e : error).
Arguments Ok {A} a.
Arguments Raise {A} e.

(** The three places [fetch_data] is called from (lines 45, 68 and 86). *)
Inductive resource : Type := PokemonResource | SpeciesResource | ChainResource.

Definition request : Type := resource * string.

(** What the API answers: for each kind of resource, the payload returned
    for a URL ([None] when [fetch_data] raises), possibly depending on the
    requests made so far. *)
Record world : Type := World {
  pokemon_api : list request -> string -> option pokemon_data;
  species_api : list request -> string -> option species_data;
  chain_api : list request -> string -> option chain_link
}.

(** A finite binary64 number: [significand * 2 ^ exponent].  The results of
    a division of integers are written with a significand of 53 bits
    (between [2^52] and [2^53], the latter when rounding carries), or with
    the exponent [-1074] when they are subnormal. *)
Record binary64 : Type := Binary64 {
  significand : Z;
  exponent : Z
}.

(** A value written to a CSV column. *)
Inductive cell : Type :=
  | CInt (z : Z)
  | CFloat (x : binary64)
  | CStr (s : string)
  | CNone.

(** The global [evo_cache], the requests sent so far and the rows handed to
    the CSV file so far.  Console output is not modelled. *)
Record run_state : Type := RunState {
  evo_cache : gmap string (gmap string evo_entry);
  requests : list request;
  csvfile : list (list cell)
}.

Definition initial_state : run_state :=
  {| evo_cache := ∅; requests := []; csvfile := [] |}.

(** The state in which further requests have been sent. *)
Definition with_requests (st : run_state) (reqs : list request) : run_state :=
  {| evo_cache := evo_cache st;
     requests := requests st ++ reqs;
     csvfile := csvfile st |}.

(** The state in which a further row has been written. *)
Definition with_row (st : run_state) (row : list cell) : run_state :=
  {| evo_cache := evo_cache st;
     requests := requests st;
     csvfile := csvfile st ++ [row] |}.

(** Computations that read and update the state and may raise. *)
Definition M (A : Type) : Type := run_state -> result A * run_state.

Definition ret {A} (a : A) : M A := fun st => (Ok a, st).

Definition raise {A} (e : error) : M A := fun st => (Raise e, st).

(** An operation that does not touch the state. *)
Definition eval {A} (r : result A) : M A := fun st => (r, st).

Definition bind {A B} (m : M A) (k : A -> M B) : M B :=
  fun st =>
    match m st with
    | (Ok a, st') => k a st'
    | (Raise e, st') => (Raise e, st')
    end.

Declare Scope run_scope.
Delimit Scope run_scope with run.
Notation "'let*' x ':=' m 'in' k" := (bind m (fun x => k))
  (at level 10, x name, m at level 100, k at level 200) : run_scope.
Notation "m ';;' k" := (bind m (fun _ => k))
  (at level 100, k at level 200, right associativity) : run_scope.

(** [for x in l: body(x)] *)
Fixpoint for_each {A} (l : list A) (body : A -> M unit) : M unit :=
  match l with
  | [] => ret tt
  | x :: l' => bind (body x) (fun _ => for_each l' body)
  end.

(** [fetch_data(url)]: the request is sent, then the response is checked. *)
Definition fetch_data {A} (kind : resource)
    (api : list request -> string -> option A) (url : string) : M A :=
  fun st =>
    let st' := with_requests st [(kind, url)] in
    match api (requests st) url with
    | Some payload => (Ok payload, st')
    | None => (Raise (HTTPError url), st')
    end.

(* ===================================================================== *)
(** ** Python primitives *)
(* ===================================================================== *)

(** [l[i]] *)
Definition getitem {A} (l : list A) (i : nat) : M A :=
  match l !! i with
  | Some x => ret x
  | None => raise IndexError
  end.

(** [{k: v for (k, v) in pairs}]: a later pair replaces an earlier one. *)
Definition dict_of_pairs {V} (pairs : list (string * V)) : gmap string V :=
  fold_left (fun d kv => <[fst kv := snd kv]> d) pairs ∅.

(** [d[key]] *)
Definition dict_getitem {V} (d : gmap string V) (key : string) : M V :=
  match d !! key with
  | Some v => ret v
  | None => raise (KeyError key)
  end.

(** The fraction [a / (b * 2 ^ e)], written with integers. *)
Definition scale (a b e : Z) : Z * Z :=
  if (0 <=? e)%Z then (a, (b * 2 ^ e)%Z) else ((a * 2 ^ (- e))%Z, b).

(** The integer nearest to [num / den], the even one of two that are
    equally near. *)
Definition round_half_even (num den : Z) : Z :=
  let q := (num / den)%Z in
  let r := (num mod den)%Z in
  if (2 * r <? den)%Z then q
  else if (den <? 2 * r)%Z then (q + 1)%Z
  else if Z.even q then q else (q + 1)%Z.

(** The exponent at which the quotient of two positive integers has a
    significand of 53 bits, and [-1074] when the quotient is subnormal. *)
Definition quotient_exponent (a b : Z) : Z :=
  let e0 := (Z.log2 a - Z.log2 b - 52)%Z in
  let e1 :=
    if (fst (scale a b e0) / snd (scale a b e0) <? 2 ^ 52)%Z
    then (e0 - 1)%Z else e0 in
  Z.max e1 (-1074).

(** [a / b] on integers, for a positive [b] (the script divides by 10):
    the exact quotient is rounded once, to the nearest binary64 number,
    ties to even, and a result of [2^1024] or more raises. *)
Definition truediv (a : Z) (b : positive) : result binary64 :=
  if (a =? 0)%Z then Ok (Binary64 0 0)
  else
    let e := quotient_exponent (Z.abs a) (Z.pos b) in
    let num := fst (scale (Z.abs a) (Z.pos b) e) in
    let den := snd (scale (Z.abs a) (Z.pos b) e) in
    let m := round_half_even num den in
    if (0 <=? e)%Z && (2 ^ 1024 <=? m * 2 ^ e)%Z then Raise OverflowError
    else Ok (Binary64 (Z.sgn a * m) e).

(** The primitive float with the same value, to compare with literals
    (for a significand below [2^63] and a normal result, as those of a
    division are). *)
Definition to_prim (x : binary64) : float :=
  let f := Z.ldexp (PrimFloat.of_uint63 (Uint63.of_Z (Z.abs (significand x))))
             (exponent x) in
  if (significand x <? 0)%Z then PrimFloat.opp f else f.

(** The strings that the UTF-8 codec of the output file accepts: those
    without a surrogate, whose encoding would start with the byte 237
    followed by a byte of 160 or more. *)
Fixpoint encodable (s : string) : bool :=
  match s with
  | EmptyString => true
  | String c rest =>
      match rest with
      | EmptyString => true
      | String c' _ =>
          negb (Ascii.eqb c "237"%char && (160 <=? nat_of_ascii c')%nat)
          && encodable rest
      end
  end.

Definition cell_encodable (c : cell) : bool :=
  match c with
  | CStr s => encodable s
  | _ => true
  end.

Definition newline : ascii := "010"%char.
Definition formfeed : ascii := "012"%char.

(** [s.replace(old, new)] for a non-empty [old]: occurrences are replaced
    from left to right, [skip] counting the characters of a match that are
    still to be dropped. *)
Fixpoint replace_from (old new : string) (skip : nat) (s : string) : string :=
  match s with
  | EmptyString => EmptyString
  | String c rest =>
      match skip with
      | S k => replace_from old new k rest
      | O =>
          if String.prefix old s
          then (new +:+ replace_from old new (String.length old - 1) rest)%string
          else String c (replace_from old new 0 rest)
      end
  end.

Definition str_replace (old new s : string) : string := replace_from old new 0 s.

(** [sep.join(l)] *)
Definition join (sep : string) (l : list string) : string := String.concat sep l.

(** [str(id)] inside the f-string. *)
Definition str_of_int (z : Z) : string := NilZero.string_of_int (Z.to_int z).

(* ===================================================================== *)
(** ** The script *)
(* ===================================================================== *)

Definition fieldnames : list string :=
  [ "id"; "pokedex_number"; "name"; "type_primary"; "type_secondary";
    "hp"; "attack"; "defense"; "special_attack"; "special_defense"; "speed";
    "height"; "weight"; "description"; "evolution_from"; "evolution_to";
    "image_url" ].

(** [rowdict.get(key)] on a dictionary written as a literal. *)
Fixpoint rowdict_get (rowdict : list (string * cell)) (key : string) : option cell :=
  match rowdict with
  | [] => None
  | (k, v) :: rest => if String.eqb k key then Some v else rowdict_get rest key
  end.

(** [csv.DictWriter.writerow]: a key outside [fieldnames] raises, a missing
    one is written as the empty string, and the values are laid out in the
    order of [fieldnames]; the line is then encoded for the file, which
    raises, before anything is written, when a string cannot be encoded. *)
Definition writerow (rowdict : list (string * cell)) : M unit :=
  fun st =>
    if forallb (fun kv => existsb (String.eqb (fst kv)) fieldnames) rowdict
    then
      let row :=
        map (fun key => default (CStr "") (rowdict_get rowdict key))
          fieldnames in
      if forallb cell_encodable row then (Ok tt, with_row st row)
      else (Raise UnicodeEncodeError, st)
    else (Raise ValueError, st).

(** [csv.DictWriter.writeheader] *)
Definition writeheader : M unit :=
  writerow (map (fun key => (key, CStr key)) fieldnames).

(** The value of a column in a written row. *)
Definition column (row : list cell) (key : string) : option cell :=
  rowdict_get (combine fieldnames row) key.

(** Lines 72-76: the first English entry of the red or blue version. *)
Definition qualifies (entry : flavor_text_entry) : bool :=
  String.eqb (language entry) "en"
  && (String.eqb (version entry) "red" || String.eqb (version entry) "blue").

(** Line 75: [.replace("\n", " ").replace("\f", "")].  Strings are
    sequences of bytes (UTF-8); neither byte occurs inside the encoding of
    another character, so replacing bytes is replacing characters. *)
Definition normalize (text : string) : string :=
  str_replace (String formfeed EmptyString) ""
    (str_replace (String newline EmptyString) " " text).

Fixpoint find_description (entries : list flavor_text_entry)
    (description : string) : string :=
  match entries with
  | [] => description
  | entry :: rest =>
      if qualifies entry then normalize (flavor_text entry)
      else find_description rest description
  end.

(** Lines 83-91: the evolution mapping of a chain URL, through the cache. *)
Definition get_or_fetch (w : world) (evolution_chain_url : string) :
    M (gmap string evo_entry) :=
  fun st =>
    match evo_cache st !! evolution_chain_url with
    | None =>
        (let* evolution_chain_data :=
           fetch_data ChainResource (chain_api w) evolution_chain_url in
         let evo_dict := parse_evolution_chain evolution_chain_data in
         fun st' =>
           (Ok evo_dict,
            {| evo_cache := <[evolution_chain_url := evo_dict]> (evo_cache st');
               requests := requests st';
               csvfile := csvfile st' |}))%run st
    | Some evo_dict => (Ok evo_dict, st)
    end.

(** Line 94: [evo_dict.get(name, {"from": None, "to": []})]. *)
Definition evo_details_of (evo_dict : gmap string evo_entry) (name : string) :
    evo_entry :=
  default {| evo_from := None; evo_to := [] |} (evo_dict !! name).

(** Line 95: the predecessor unless it is [None] or empty. *)
Definition render_from (evo_details : evo_entry) : string :=
  match evo_from evo_details with
  | Some s => if String.eqb s "" then "" else s
  | None => ""
  end.

(** Line 96: the successors joined unless the list is empty. *)
Definition render_to (evo_details : evo_entry) : string :=
  match evo_to evo_details with
  | [] => ""
  | _ :: _ => join ", " (evo_to evo_details)
  end.

(** Line 45: the f-string of the request. *)
Definition pokemon_url (id : Z) : string :=
  ("https://pokeapi.co/api/v2/pokemon/" +:+ str_of_int id +:+ "/")%string.

(** The body of the loop, lines 42-119. *)
Definition process_pokemon (w : world) (id : Z) : M unit :=
  (let* pokemon_data := fetch_data PokemonResource (pokemon_api w) (pokemon_url id) in
   let pokedex_number := id in
   let name := pd_name pokemon_data in
   let types := pd_types pokemon_data in
   let* type_primary := getitem types 0 in
   let* type_secondary :=
     (if (1 <? length types)%nat then getitem types 1 else ret "") in
   let stats := dict_of_pairs (pd_stats pokemon_data) in
   let* hp := dict_getitem stats "hp" in
   let* attack := dict_getitem stats "attack" in
   let* defense := dict_getitem stats "defense" in
   let* special_attack := dict_getitem stats "special-attack" in
   let* special_defense := dict_getitem stats "special-defense" in
   let* speed := dict_getitem stats "speed" in
   let* height := eval (truediv (pd_height pokemon_data) 10) in
   let* weight := eval (truediv (pd_weight pokemon_data) 10) in
   let image_url := pd_front_default pokemon_data in
   let species_url := pd_species_url pokemon_data in
   let* species_data := fetch_data SpeciesResource (species_api w) species_url in
   let flavor_text_entries := sd_flavor_text_entries species_data in
   let description := find_description flavor_text_entries "" in
   let evolution_chain_url := sd_evolution_chain_url species_data in
   let* evo_dict := get_or_fetch w evolution_chain_url in
   let evo_details := evo_details_of evo_dict name in
   let evolution_from := render_from evo_details in
   let evolution_to := render_to evo_details in
   writerow
     [ ("id", CInt id);
       ("pokedex_number", CInt pokedex_number);
       ("name", CStr name);
       ("type_primary", CStr type_primary);
       ("type_secondary", CStr type_secondary);
       ("hp", CInt hp);
       ("attack", CInt attack);
       ("defense", CInt defense);
       ("special_attack", CInt special_attack);
       ("special_defense", CInt special_defense);
       ("speed", CInt speed);
       ("height", CFloat height);
       ("weight", CFloat weight);
       ("description", CStr description);
       ("evolution_from", CStr evolution_from);
       ("evolution_to", CStr evolution_to);
       ("image_url", match image_url with Some u => CStr u | None => CNone end)
     ])%run.

(** [range(start, stop)] *)
Definition range (start stop : Z) : list Z :=
  map (fun k => (start + Z.of_nat k)%Z) (seq 0 (Z.to_nat (stop - start))).

(** Lines 30-119: the header, then the loop over the ids 1 to 151. *)
Definition main (w : world) : M unit :=
  (writeheader ;;
   for_each (range 1 152) (process_pokemon w))%run.

(** *** A small world for examples: the first three species *)

Definition six_stats (hp attack defense sa sd speed : Z) : list (string * Z) :=
  [ ("hp", hp); ("attack", attack); ("defense", defense);
    ("special-attack", sa); ("special-defense", sd); ("speed", speed) ].

Definition bulbasaur_data : pokemon_data :=
  PokemonData "bulbasaur" ["grass"; "poison"] (six_stats 45 49 49 65 65 45)
    7 69 (Some "art/1.png") "species/1".

Definition ivysaur_data : pokemon_data :=
  PokemonData "ivysaur" ["grass"; "poison"] (six_stats 60 62 63 80 80 60)
    10 130 (Some "art/2.png") "species/2".

Definition venusaur_data : pokemon_data :=
  PokemonData "venusaur" ["grass"; "poison"] (six_stats 80 82 83 100 100 80)
    20 1000 None "species/3".

Definition bulbasaur_species : species_data :=
  SpeciesData
    [ FlavorTextEntry "fr" "red" "graine";
      FlavorTextEntry "en" "yellow" "It can go for days";
      FlavorTextEntry "en" "red"
        ("A strange seed was" +:+ String newline "planted on its"
         +:+ String formfeed "back at birth.");
      FlavorTextEntry "en" "blue" "later entry" ]
    "chain/1".

Definition demo_world : world :=
  {| pokemon_api := fun _ url =>
       if String.eqb url (pokemon_url 1) then Some bulbasaur_data
       else if String.eqb url (pokemon_url 2) then Some ivysaur_data
       else if String.eqb url (pokemon_url 3) then Some venusaur_data
       else None;
     species_api := fun _ url =>
       if String.eqb url "species/1" then Some bulbasaur_species
       else if String.eqb url "species/2" then Some (SpeciesData [] "chain/1")
       else if String.eqb url "species/3" then Some (SpeciesData [] "chain/1")
       else None;
     chain_api := fun _ url =>
       if String.eqb url "chain/1" then Some bulbasaur_chain else None |}.

(** A world that gives the same three answers to every request. *)
Definition constant_world (p : pokemon_data) (s : species_data)
    (chain : chain_link) : world :=
  {| pokemon_api := fun _ _ => Some p;
     species_api := fun _ _ => Some s;
     chain_api := fun _ _ => Some chain |}.

Definition uniform_world : world :=
  constant_world bulbasaur_data bulbasaur_species bulbasaur_chain.

(** Payloads with a gap: a species that its chain does not name, a payload
    without the speed statistic and one without types. *)
Definition stray_data : pokemon_data :=
  PokemonData "mew" ["psychic"] (six_stats 100 100 100 100 100 100)
    4 40 None "species/151".

Definition eevee_data : pokemon_data :=
  PokemonData "eevee" ["normal"] (six_stats 55 55 50 45 65 55)
    3 65 None "species/133".

Definition no_speed_data : pokemon_data :=
  PokemonData "bulbasaur" ["grass"; "poison"]
    [ ("hp", 45%Z); ("attack", 49%Z); ("defense", 49%Z);
      ("special-attack", 65%Z); ("special-defense", 65%Z) ]
    7 69 None "species/1".


(** The state in which the first iteration of a constant world looks up
    its chain, and the one in which it writes its row. *)
Definition lookup_state (p : pokemon_data) : run_state :=
  with_requests initial_state
    [(PokemonResource, pokemon_url 1); (SpeciesResource, pd_species_url p)].

Definition writing_state (p : pokemon_data) (s : species_data)
    (chain : chain_link) : run_state :=
  snd (get_or_fetch (constant_world p s chain) (sd_evolution_chain_url s)
         (lookup_state p)).

(* ===================================================================== *)
(** ** Vocabulary of the statements *)
(* ===================================================================== *)

(** The keys read at lines 55-60, in that order. *)
Definition required_stats : list string :=
  [ "hp"; "attack"; "defense"; "special-attack"; "special-defense"; "speed" ].

(** The first of the required keys that the payload lacks. *)
Definition first_missing_stat (p : pokemon_data) : option string :=
  find (fun key => negb (existsb (String.eqb key) (map fst (pd_stats p))))
    required_stats.

(** The iteration for [id], started in [st], is answered [p] and then [s],
    and resolves the chain of [s] to [evo_dict], reaching [st3]. *)
Definition receives (w : world) (st : run_state) (id : Z)
    (p : pokemon_data) (s : species_data)
    (evo_dict : gmap string evo_entry) (st3 : run_state) : Prop :=
  pokemon_api w (requests st) (pokemon_url id) = Some p /\
  species_api w (requests st ++ [(PokemonResource, pokemon_url id)])
    (pd_species_url p) = Some s /\
  get_or_fetch w (sd_evolution_chain_url s)
    (with_requests st [(PokemonResource, pokemon_url id);
                       (SpeciesResource, pd_species_url p)])
  = (Ok evo_dict, st3).

(** The payload has a type and the six statistics. *)
Definition has_required_fields (p : pokemon_data) : Prop :=
  pd_types p <> [] /\
  Forall (fun key => In key (map fst (pd_stats p))) required_stats.

Definition stat_cell (p : pokemon_data) (key : string) : cell :=
  CInt (default 0%Z (dict_of_pairs (pd_stats p) !! key)).

(** The cell of a raw value divided by ten. *)
Definition tenth_cell (raw : Z) : cell :=
  match truediv raw 10 with
  | Ok x => CFloat x
  | Raise _ => CNone
  end.

(** The row of an iteration that was answered [p], [s] and [evo_dict]. *)
Definition written_row (id : Z) (p : pokemon_data) (s : species_data)
    (evo_dict : gmap string evo_entry) : list cell :=
  [ CInt id; CInt id; CStr (pd_name p);
    CStr (nth 0 (pd_types p) ""); CStr (nth 1 (pd_types p) "");
    stat_cell p "hp"; stat_cell p "attack"; stat_cell p "defense";
    stat_cell p "special-attack"; stat_cell p "special-defense";
    stat_cell p "speed";
    tenth_cell (pd_height p); tenth_cell (pd_weight p);
    CStr (find_description (sd_flavor_text_entries s) "");
    CStr (render_from (evo_details_of evo_dict (pd_name p)));
    CStr (render_to (evo_details_of evo_dict (pd_name p)));
    match pd_front_default p with Some u => CStr u | None => CNone end ].

(** Neither division by ten of the payload overflows. *)
Definition no_overflow (p : pokemon_data) : Prop :=
  (exists x, truediv (pd_height p) 10 = Ok x) /\
  (exists x, truediv (pd_weight p) 10 = Ok x).

(** The row can be written: the divisions do not overflow and every string
    of the row can be encoded. *)
Definition writable (id : Z) (p : pokemon_data) (s : species_data)
    (evo_dict : gmap string evo_entry) : Prop :=
  no_overflow p /\
  forallb cell_encodable (written_row id p s evo_dict) = true.

(** [x] is the quotient [a / b] rounded to the nearest binary64 number
    with a significand of 53 bits: the exact quotient lies in the binade of
    the exponent of [x], no integer is nearer to the quotient scaled by
    that exponent than the significand of [x], and the significand is even
    when the quotient is half-way. *)
Definition correctly_rounded (a : Z) (b : positive) (x : binary64) : Prop :=
  let m := Z.abs (significand x) in
  let num := fst (scale (Z.abs a) (Z.pos b) (exponent x)) in
  let den := snd (scale (Z.abs a) (Z.pos b) (exponent x)) in
  Z.sgn (significand x) = Z.sgn a /\
  (2 ^ 52 * den <= num < 2 ^ 53 * den)%Z /\
  (forall m' : Z, (Z.abs (m * den - num) <= Z.abs (m' * den - num))%Z) /\
  ((2 * Z.abs (m * den - num))%Z = den -> Z.even m = true).

(** [x] is the tenth of [raw] as a float: zero for zero, the correctly
    rounded quotient otherwise, and therefore the exact tenth whenever
    [raw] is ten times an integer [k] of at most 53 bits. *)
Definition tenth_of (raw : Z) (x : binary64) : Prop :=
  (raw = 0%Z -> x = Binary64 0 0) /\
  (raw <> 0%Z -> correctly_rounded raw 10 x) /\
  (forall k : Z, raw = (10 * k)%Z -> (Z.abs k < 2 ^ 53)%Z ->
     (exponent x <= 0)%Z /\ significand x = (k * 2 ^ (- exponent x))%Z).

(** The entry is an English one of the red or blue version. *)
Definition matches (entry : flavor_text_entry) : Prop :=
  language entry = "en" /\ (version entry = "red" \/ version entry = "blue").

(** The normalisation in the words of the specification: every newline
    becomes a space and every form feed is dropped. *)
Fixpoint spec_normalize (text : string) : string :=
  match text with
  | EmptyString => EmptyString
  | String c rest =>
      if Ascii.eqb c newline then String " "%char (spec_normalize rest)
      else if Ascii.eqb c formfeed then spec_normalize rest
      else String c (spec_normalize rest)
  end.

#[global] Instance resource_eq_dec : EqDecision resource.
Proof. solve_decision. Defined.

(** How many times the chain resource at [url] was requested. *)
Definition chain_fetches (url : string) (reqs : list request) : nat :=
  length (filter (fun r => r = (ChainResource, url)) reqs).

(** Every chain URL was requested at most once. *)
Definition fetched_once (st : run_state) : Prop :=
  forall url, chain_fetches url (requests st) <= 1.

(** Moreover every chain URL requested so far is a key of the cache. *)
Definition cache_covers (st : run_state) : Prop :=
  fetched_once st /\
  forall url, 1 <= chain_fetches url (requests st) ->
              is_Some (evo_cache st !! url).

(** Triples: from a state in [P], [m] ends in [Q] when it returns and in
    [E] when it raises. *)
Definition hoare {A} (P : run_state -> Prop) (m : M A)
    (Q : A -> run_state -> Prop) (E : error -> run_state -> Prop) : Prop :=
  forall st, P st ->
    match m st with
    | (Ok a, st') => Q a st'
    | (Raise e, st') => E e st'
    end.

(** A computation that leaves the cache and the log of requests alone. *)
Definition silent {A} (m : M A) : Prop :=
  forall st, evo_cache (snd (m st)) = evo_cache st /\
             requests (snd (m st)) = requests st.

(** Every name an entry of [d] refers to, as predecessor or as successor,
    satisfies [K]. *)
Definition references_within (K : string -> Prop)
    (d : gmap string evo_entry) : Prop :=
  forall k e, d !! k = Some e ->
    (forall x, In x (evo_to e) -> K x) /\
    (forall p, evo_from e = Some p -> K p).

(** Every mapping in the cache is the parse of the chain that the API
    answered when its URL was requested. *)
Definition cache_of_answers (w : world) (st : run_state) : Prop :=
  forall url evo_dict,
    evo_cache st !! url = Some evo_dict ->
    exists history later chain,
      requests st = history ++ (ChainResource, url) :: later /\
      chain_api w history url = Some chain /\
      evo_dict = parse_evolution_chain chain.

(** The header row, as [writeheader] lays it out. *)
Definition header_row : list cell := map CStr fieldnames.

(** The iteration for [id], started in [st], gets its three answers, finds
    the required fields and can write its row. *)
Definition iteration_answered (w : world) (id : Z) (st : run_state) : Prop :=
  exists p s evo_dict st3,
    receives w st id p s evo_dict st3 /\
    has_required_fields p /\
    writable id p s evo_dict.

(** The state in which the run starts its iteration number [k], counting
    from 0: the one left by the header and the iterations before it. *)
Definition state_before (w : world) (k : nat) : run_state :=
  snd (for_each (range 1 (1 + Z.of_nat k)) (process_pokemon w)
         (with_row initial_state header_row)).

(** A payload whose image URL holds a lone surrogate, which JSON allows
    and the codec of the file refuses. *)
Definition surrogate_data : pokemon_data :=
  PokemonData "bulbasaur" ["grass"; "poison"] (six_stats 45 49 49 65 65 45)
    7 69 (Some (String "237" (String "160" (String "128" "")))) "species/1".

(** A payload whose height is too large for a float, even divided by ten. *)
Definition giant_data : pokemon_data :=
  PokemonData "bulbasaur" ["grass"; "poison"] (six_stats 45 49 49 65 65 45)
    (10 ^ 400) 69 None "species/1".

(* ===================================================================== *)
(** ** The parser: auxiliary lemmas *)
(* ===================================================================== *)

Section ParserLemmas.

Implicit Types (t c : chain_link) (d : gmap string evo_entry)
  (k name : string) (previous : option string).

(** Induction over trees, with the hypothesis for every child. *)
Lemma chain_link_induction (P : chain_link -> Prop) :
  (forall name evos, Forall P evos -> P (ChainLink name evos)) ->
  forall t, P t.
Proof.
  intros step. fix IH 1. intros [name evos]. apply step.
  induction evos as [|c evos IHevos]; constructor.
  - apply IH.
  - exact IHevos.
Qed.

Lemma recurse_chain_unfold name evos previous d :
  recurse_chain (ChainLink name evos) previous d
  = fold_left (visit name) evos
      (<[name := {| evo_from := previous; evo_to := [] |}]> d).
Proof. reflexivity. Qed.

Lemma species_names_unfold name evos :
  species_names (ChainLink name evos) = name :: flat_map species_names evos.
Proof. reflexivity. Qed.

Lemma species_in_names t : In (species t) (species_names t).
Proof. destruct t; simpl; auto. Qed.

(** A key that is no name of the tree is left alone. *)
Lemma recurse_chain_frame t :
  forall previous d k,
    ~ In k (species_names t) -> recurse_chain t previous d !! k = d !! k.
Proof.
  induction t as [name evos IH] using chain_link_induction.
  intros previous d k Hk.
  rewrite species_names_unfold in Hk. rewrite recurse_chain_unfold.
  assert (Hne : name <> k) by (intros ->; apply Hk; left; reflexivity).
  assert (Hevos : ~ In k (flat_map species_names evos))
    by (intros H; apply Hk; right; exact H).
  transitivity ((<[name := {| evo_from := previous; evo_to := [] |}]> d) !! k);
    [| by rewrite lookup_insert_ne].
  generalize (<[name := {| evo_from := previous; evo_to := [] |}]> d) as d0.
  clear Hk. induction evos as [|c evos IHevos]; intros d0; simpl; [done|].
  inversion IH as [|? ? IHc IHrest]; subst.
  simpl in Hevos. rewrite in_app_iff in Hevos.
  rewrite IHevos by tauto. unfold visit.
  rewrite IHc by tauto. by rewrite lookup_alter_ne.
Qed.

Lemma fold_visit_frame name evos d k :
  name <> k -> ~ In k (flat_map species_names evos) ->
  fold_left (visit name) evos d !! k = d !! k.
Proof.
  intros Hne. revert d.
  induction evos as [|c evos IH]; intros d Hk; simpl in *; [done|].
  rewrite in_app_iff in Hk. rewrite IH by tauto. unfold visit.
  rewrite recurse_chain_frame by tauto. by rewrite lookup_alter_ne.
Qed.

(** The keys of the result: those of the start and the names of the tree. *)
Lemma recurse_chain_keys t :
  forall previous d k,
    is_Some (recurse_chain t previous d !! k)
    <-> In k (species_names t) \/ is_Some (d !! k).
Proof.
  induction t as [name evos IH] using chain_link_induction.
  intros previous d k.
  rewrite species_names_unfold, recurse_chain_unfold.
  assert (Hstart : forall d0,
    is_Some (fold_left (visit name) evos d0 !! k)
    <-> In k (flat_map species_names evos) \/ is_Some (d0 !! k)).
  { induction evos as [|c evos IHevos]; intros d0; simpl.
    - tauto.
    - inversion IH as [|? ? IHc IHrest]; subst.
      rewrite IHevos by assumption. unfold visit. rewrite IHc.
      rewrite in_app_iff.
      assert (is_Some (alter (append_to (species c)) name d0 !! k)
              <-> is_Some (d0 !! k)) as ->; [|tauto].
      destruct (decide (name = k)) as [->|Hne].
      + rewrite lookup_alter_eq, fmap_is_Some. tauto.
      + rewrite lookup_alter_ne by done. tauto. }
  rewrite Hstart. simpl.
  destruct (decide (name = k)) as [->|Hne].
  - rewrite lookup_insert_eq. split; [auto|]. intros _. right. by eexists.
  - rewrite lookup_insert_ne by done. split; [tauto|].
    intros [[?|?]|?]; [congruence|tauto|tauto].
Qed.

(** Keys are never removed, so the entry read by [append] exists. *)
Lemma recurse_chain_keeps t previous d k :
  is_Some (d !! k) -> is_Some (recurse_chain t previous d !! k).
Proof. intros H. apply recurse_chain_keys. by right. Qed.

Lemma fold_visit_keeps name evos d k :
  is_Some (d !! k) -> is_Some (fold_left (visit name) evos d !! k).
Proof.
  revert d. induction evos as [|c evos IH]; intros d H; simpl; [done|].
  apply IH. unfold visit. apply recurse_chain_keeps.
  destruct (decide (name = k)) as [->|Hne].
  - rewrite lookup_alter_eq, fmap_is_Some. done.
  - by rewrite lookup_alter_ne.
Qed.

(** The entry of the node itself, when no descendant bears its name. *)
Lemma fold_visit_root name evos d :
  ~ In name (flat_map species_names evos) ->
  fold_left (visit name) evos d !! name
  = (fun e => {| evo_from := evo_from e;
                 evo_to := evo_to e ++ map species evos |}) <$> d !! name.
Proof.
  revert d. induction evos as [|c evos IH]; intros d Hn; simpl in *.
  - destruct (d !! name) as [[f l]|]; simpl; [|done].
    by rewrite app_nil_r.
  - rewrite in_app_iff in Hn. rewrite IH by tauto. unfold visit.
    rewrite recurse_chain_frame by tauto. rewrite lookup_alter_eq.
    destruct (d !! name) as [[f l]|]; simpl; [|done].
    by rewrite <- app_assoc.
Qed.

(** A name inside the child [c] and in no later sibling. *)
Lemma fold_visit_child name l1 c l2 d k :
  name <> k -> ~ In k (flat_map species_names l2) ->
  fold_left (visit name) (l1 ++ c :: l2) d !! k
  = recurse_chain c (Some name)
      (alter (append_to (species c)) name (fold_left (visit name) l1 d)) !! k.
Proof.
  intros Hne Hk. rewrite fold_left_app. simpl.
  by rewrite fold_visit_frame.
Qed.

Lemma subtree_species_in t : forall path n,
  subtree t path = Some n -> In (species n) (species_names t).
Proof.
  induction t as [name evos IH] using chain_link_induction.
  intros [|i path] n; simpl.
  - intros [= <-]. by left.
  - destruct (evos !! i) as [c|] eqn:Hc; [|done]. intros Hn. right.
    apply in_flat_map. exists c. split.
    + apply list_elem_of_In. by eapply list_elem_of_lookup_2.
    + rewrite Forall_forall in IH. eapply IH; [|exact Hn].
      by eapply list_elem_of_lookup_2.
Qed.

Lemma count_occ_zero_not_In (l : list string) k :
  count_occ string_dec l k = 0 -> ~ In k l.
Proof. intros H. by apply (count_occ_not_In string_dec). Qed.

Lemma count_occ_pos_In (l : list string) k :
  In k l -> 0 < count_occ string_dec l k.
Proof. intros H. by apply (count_occ_In string_dec). Qed.

(** The entry stored for a node whose name no other node bears. *)
Lemma recurse_chain_entry : forall path t previous d n,
  subtree t path = Some n ->
  unique_name t (species n) ->
  recurse_chain t previous d !! species n
  = Some {| evo_from := predecessor t previous path;
            evo_to := map species (evolves_to n) |}.
Proof.
  unfold unique_name.
  induction path as [|i path IH]; intros [name evos] previous d n;
    rewrite recurse_chain_unfold; simpl.
  - intros [= <-] Hu. simpl in *.
    destruct (string_dec name name) as [_|]; [|done].
    rewrite fold_visit_root by (apply count_occ_zero_not_In; lia).
    by rewrite lookup_insert_eq.
  - destruct (evos !! i) as [c|] eqn:Hc; [|done]. intros Hn Hu.
    pose proof (subtree_species_in _ _ _ Hn) as Hin.
    apply count_occ_pos_In in Hin.
    rewrite <- (take_drop_middle _ _ _ Hc) in Hu |- *.
    rewrite !flat_map_app in Hu. simpl in Hu.
    rewrite !count_occ_app in Hu.
    destruct (string_dec name (species n)) as [->|Hne]; [lia|].
    rewrite fold_visit_child; [|done|apply count_occ_zero_not_In; lia].
    apply IH; [done|]. lia.
Qed.

Lemma predecessor_child : forall path t previous i parent n,
  subtree t path = Some parent ->
  subtree t (path ++ [i]) = Some n ->
  predecessor t previous (path ++ [i]) = Some (species parent).
Proof.
  induction path as [|j path IH]; intros t previous i parent n; simpl.
  - intros [= <-]. destruct (evolves_to t !! i); [done|discriminate].
  - destruct (evolves_to t !! j) as [c|]; [|done]. apply IH.
Qed.

(** The recorded traversal computes the same dictionary, and its log is
    the depth-first list of positions. *)
Lemma recurse_chain_traced_spec t :
  forall previous path st,
    recurse_chain_traced t previous path st
    = (recurse_chain t previous (fst st),
       snd st ++ map (app path) (all_paths t)).
Proof.
  induction t as [name evos IH] using chain_link_induction.
  intros previous path st. rewrite recurse_chain_unfold. simpl.
  set (st0 := (<[name:={| evo_from := previous; evo_to := [] |}]> (fst st),
               snd st ++ [path])).
  assert (Hloop : forall i st1,
    visit_children recurse_chain_traced name path i evos st1
    = (fold_left (visit name) evos (fst st1),
       snd st1 ++ map (app path) (child_paths all_paths i evos))).
  { induction evos as [|c evos IHevos]; intros i [d1 log1]; simpl.
    - by rewrite app_nil_r.
    - inversion IH as [|? ? IHc IHrest]; subst.
      rewrite IHc, IHevos by assumption. simpl. f_equal.
      rewrite map_app, map_map, <- app_assoc. do 2 f_equal.
      apply map_ext. intros q. by rewrite <- app_assoc. }
  rewrite Hloop. subst st0. simpl.
  by rewrite app_nil_r, <- app_assoc.
Qed.

Lemma child_paths_elem (evos : list chain_link) : forall i (q : list nat),
  q ∈ child_paths all_paths i evos
  <-> exists j c q', q = (i + j) :: q' /\ evos !! j = Some c /\ q' ∈ all_paths c.
Proof.
  induction evos as [|c evos IH]; intros i q; simpl.
  - split; [by intros ?%elem_of_nil|]. by intros (j & c & q' & _ & ? & _).
  - rewrite elem_of_app, IH. split.
    + intros [Hq|(j & c' & q' & -> & Hj & Hq')].
      * change (q ∈ cons i <$> all_paths c) in Hq.
        apply list_elem_of_fmap in Hq as (q' & -> & Hq').
        exists 0, c, q'. by rewrite Nat.add_0_r.
      * exists (S j), c', q'. split; [f_equal; lia|done].
    + intros ([|j] & c' & q' & -> & Hj & Hq'); simpl in Hj.
      * injection Hj as <-. left. rewrite Nat.add_0_r.
        change ((i :: q') ∈ cons i <$> all_paths c).
        apply list_elem_of_fmap. by exists q'.
      * right. exists j, c', q'. split; [f_equal; lia|done].
Qed.

(** The positions listed are those of the nodes of the tree. *)
Lemma all_paths_elem t : forall q, q ∈ all_paths t <-> is_Some (subtree t q).
Proof.
  induction t as [name evos IH] using chain_link_induction.
  intros q. simpl. rewrite elem_of_cons, child_paths_elem.
  rewrite Forall_forall in IH. split.
  - intros [->|(j & c & q' & -> & Hj & Hq')]; simpl; [by eexists|].
    rewrite Hj. apply IH; [|done]. by eapply list_elem_of_lookup_2.
  - destruct q as [|j q']; simpl; [by left|].
    destruct (evos !! j) as [c|] eqn:Hj; [|by intros [? [=]]].
    intros Hq. right. exists j, c, q'. split; [done|]. split; [done|].
    apply IH; [|done]. by eapply list_elem_of_lookup_2.
Qed.

(** No position is listed twice. *)
Lemma all_paths_NoDup t : NoDup (all_paths t).
Proof.
  induction t as [name evos IH] using chain_link_induction.
  simpl. apply NoDup_cons. split.
  - rewrite child_paths_elem. by intros (j & c & q' & [=] & _).
  - generalize 0. induction evos as [|c evos IHevos]; intros i; simpl.
    + apply NoDup_nil_2.
    + inversion IH as [|? ? IHc IHrest]; subst.
      apply NoDup_app. split; [|split].
      * change (NoDup (cons i <$> all_paths c)).
        apply NoDup_fmap_2; [|done]. by intros ? ? [=].
      * intros q Hq. change (q ∈ cons i <$> all_paths c) in Hq.
        apply list_elem_of_fmap in Hq as (q' & -> & _).
        rewrite child_paths_elem. intros (j & ? & ? & [= Hij _] & _). lia.
      * by apply IHevos.
Qed.

Lemma species_names_subtree t : forall k,
  In k (species_names t) -> exists path n, subtree t path = Some n /\ species n = k.
Proof.
  induction t as [name evos IH] using chain_link_induction.
  intros k [<-|Hk].
  - by exists [], (ChainLink name evos).
  - apply in_flat_map in Hk as (c & Hc & Hk).
    apply list_elem_of_In in Hc. rewrite Forall_forall in IH.
    destruct (IH c Hc k Hk) as (path & n & Hn & <-).
    apply list_elem_of_lookup_1 in Hc as [i Hi].
    exists (i :: path), n. simpl. by rewrite Hi.
Qed.

Lemma NoDup_unique_name t k :
  NoDup (species_names t) -> In k (species_names t) -> unique_name t k.
Proof.
  intros Hnd Hk. apply NoDup_ListNoDup in Hnd.
  by apply (proj1 (NoDup_count_occ' string_dec _) Hnd).
Qed.

End ParserLemmas.

(* ===================================================================== *)
(** ** The parser: keys, visits, successors and predecessors *)
(* ===================================================================== *)

(** C1, as amended.  For every evolution-chain tree, the keys of the mapping
    are exactly the species names of its nodes and the traversal calls
    [recurse_chain] exactly once on every node (the log of calls has no
    repetition and holds the positions of the tree).  For every node whose
    species name no other node bears, the ["to"] entry stored under that
    name is the list of the names of its children, in source order; when
    the names of the tree are pairwise distinct this holds for all nodes. *)
Theorem parse_evolution_chain_keys_visits_to (t : chain_link) :
  (forall k, is_Some (parse_evolution_chain t !! k)
             <-> exists path n, subtree t path = Some n /\ species n = k) /\
  (let traced := recurse_chain_traced t None [] (∅, []) in
   fst traced = parse_evolution_chain t /\
   NoDup (snd traced) /\
   forall path, path ∈ snd traced <-> is_Some (subtree t path)) /\
  (forall path n,
     subtree t path = Some n -> unique_name t (species n) ->
     evo_to <$> parse_evolution_chain t !! species n
     = Some (map species (evolves_to n))) /\
  (NoDup (species_names t) -> to_lists_children t).
Proof.
  assert (Hnode : forall path n,
    subtree t path = Some n -> unique_name t (species n) ->
    evo_to <$> parse_evolution_chain t !! species n
    = Some (map species (evolves_to n))).
  { intros path n Hn Hu. unfold parse_evolution_chain.
    by rewrite (recurse_chain_entry path t None ∅ n Hn Hu). }
  split; [|split; [|split]].
  - intros k. unfold parse_evolution_chain. rewrite recurse_chain_keys.
    rewrite lookup_empty. split.
    + intros [Hk|[? [=]]]. by apply species_names_subtree.
    + intros (path & n & Hn & <-). left. by eapply subtree_species_in.
  - rewrite recurse_chain_traced_spec. simpl. split; [done|].
    rewrite map_id. split; [apply all_paths_NoDup|apply all_paths_elem].
  - exact Hnode.
  - intros Hnd path n Hn. apply (Hnode path n Hn).
    apply NoDup_unique_name; [done|]. by eapply subtree_species_in.
Qed.

Lemma parse_evolution_chain_keys_visits_to_witness :
  subtree eevee_chain [] = Some eevee_chain /\
  unique_name eevee_chain "eevee" /\
  evo_to <$> parse_evolution_chain eevee_chain !! "eevee"
  = Some ["vaporeon"; "jolteon"; "flareon"].
Proof.
  split; [reflexivity|]. split; [reflexivity|].
  apply (proj1 (proj2 (proj2 (parse_evolution_chain_keys_visits_to eevee_chain)))
           [] eevee_chain); reflexivity.
Defined.

(** C1, as stated, fails on a tree in which a child bears the name of its
    parent: the child's visit replaces the entry of the parent, whose
    successor list is lost. *)
Lemma to_lists_children_fails_on_repeated_name :
  ~ to_lists_children (ChainLink "a" [ChainLink "a" []]).
Proof.
  intros H. specialize (H [] _ eq_refl). vm_compute in H. discriminate H.
Qed.

(** C2, as amended.  For every evolution-chain tree: if no other node bears
    the name of the root, the ["from"] entry of the root is absent; every
    node below the root whose name no other node bears has as ["from"]
    entry the species name of its parent; when the names of the tree are
    pairwise distinct this holds for all nodes. *)
Theorem parse_evolution_chain_from (t : chain_link) :
  (unique_name t (species t) ->
   evo_from <$> parse_evolution_chain t !! species t = Some None) /\
  (forall path i parent n,
     subtree t path = Some parent ->
     subtree t (path ++ [i]) = Some n ->
     unique_name t (species n) ->
     evo_from <$> parse_evolution_chain t !! species n
     = Some (Some (species parent))) /\
  (NoDup (species_names t) -> from_is_parent t).
Proof.
  assert (Hroot : unique_name t (species t) ->
    evo_from <$> parse_evolution_chain t !! species t = Some None).
  { intros Hu. unfold parse_evolution_chain.
    by rewrite (recurse_chain_entry [] t None ∅ t eq_refl Hu). }
  assert (Hnode : forall path i parent n,
    subtree t path = Some parent ->
    subtree t (path ++ [i]) = Some n ->
    unique_name t (species n) ->
    evo_from <$> parse_evolution_chain t !! species n
    = Some (Some (species parent))).
  { intros path i parent n Hp Hn Hu. unfold parse_evolution_chain.
    rewrite (recurse_chain_entry _ t None ∅ n Hn Hu). simpl.
    by rewrite (predecessor_child path t None i parent n Hp Hn). }
  split; [exact Hroot|]. split; [exact Hnode|].
  intros Hnd. split.
  - apply Hroot, NoDup_unique_name; [done|apply species_in_names].
  - intros path i parent n Hp Hn. apply (Hnode path i parent n Hp Hn).
    apply NoDup_unique_name; [done|]. by eapply subtree_species_in.
Qed.

Lemma parse_evolution_chain_from_witness :
  NoDup (species_names bulbasaur_chain) /\
  evo_from <$> parse_evolution_chain bulbasaur_chain !! "bulbasaur" = Some None /\
  evo_from <$> parse_evolution_chain bulbasaur_chain !! "venusaur"
  = Some (Some "ivysaur").
Proof.
  assert (Hnd : NoDup (species_names bulbasaur_chain)).
  { compute_done. }
  split; [exact Hnd|].
  destruct (proj2 (proj2 (parse_evolution_chain_from bulbasaur_chain)) Hnd)
    as [Hroot Hnode].
  split; [exact Hroot|].
  exact (Hnode [0] 0 (ChainLink "ivysaur" [ChainLink "venusaur" []])
           (ChainLink "venusaur" []) eq_refl eq_refl).
Defined.

(** C2, as stated, fails on a tree in which a descendant bears the name of
    the root: the entry of the root then names a predecessor. *)
Lemma from_is_parent_fails_on_repeated_name :
  ~ from_is_parent (ChainLink "a" [ChainLink "b" [ChainLink "a" []]]).
Proof.
  intros [H _]. vm_compute in H. discriminate H.
Qed.

(* ===================================================================== *)
(** ** The run: auxiliary lemmas *)
(* ===================================================================== *)

Section RunLemmas.

Context (w : world).

Lemma bind_ok {A B} (m : M A) (k : A -> M B) st a st' :
  m st = (Ok a, st') -> bind m k st = k a st'.
Proof. unfold bind. by intros ->. Qed.

Lemma bind_raise {A B} (m : M A) (k : A -> M B) st e st' :
  m st = (Raise e, st') -> bind m k st = (Raise e, st').
Proof. unfold bind. by intros ->. Qed.

Lemma fetch_data_ok {A} kind (api : list request -> string -> option A)
    url st payload :
  api (requests st) url = Some payload ->
  fetch_data kind api url st = (Ok payload, with_requests st [(kind, url)]).
Proof. unfold fetch_data. by intros ->. Qed.

Lemma fetch_data_raise {A} kind (api : list request -> string -> option A)
    url st :
  api (requests st) url = None ->
  fetch_data kind api url st
  = (Raise (HTTPError url), with_requests st [(kind, url)]).
Proof. unfold fetch_data. by intros ->. Qed.

Lemma dict_of_pairs_fold {V} (pairs : list (string * V)) :
  forall (d : gmap string V) key,
    is_Some (fold_left (fun d kv => <[fst kv := snd kv]> d) pairs d !! key)
    <-> In key (map fst pairs) \/ is_Some (d !! key).
Proof.
  induction pairs as [|[k v] pairs IH]; intros d key; simpl.
  - tauto.
  - rewrite IH. destruct (decide (k = key)) as [->|Hne].
    + rewrite lookup_insert_eq. split; [auto|]. intros _. right. by eexists.
    + rewrite lookup_insert_ne by done. tauto.
Qed.

(** A key of the comprehension is a name of the list, and conversely. *)
Lemma dict_of_pairs_is_Some {V} (pairs : list (string * V)) key :
  is_Some (dict_of_pairs pairs !! key) <-> In key (map fst pairs).
Proof.
  unfold dict_of_pairs. rewrite dict_of_pairs_fold, lookup_empty.
  split; [|auto]. by intros [?|[? [=]]].
Qed.

Lemma dict_getitem_ok {V} (d : gmap string V) key v st :
  d !! key = Some v -> dict_getitem d key st = (Ok v, st).
Proof. unfold dict_getitem. by intros ->. Qed.

Lemma dict_getitem_raise {V} (d : gmap string V) key st :
  d !! key = None -> dict_getitem d key st = (Raise (KeyError key), st).
Proof. unfold dict_getitem. by intros ->. Qed.

Lemma stat_lookup p key :
  In key (map fst (pd_stats p)) ->
  exists v, dict_of_pairs (pd_stats p) !! key = Some v /\ stat_cell p key = CInt v.
Proof.
  intros [v Hv]%dict_of_pairs_is_Some. exists v. unfold stat_cell.
  by rewrite Hv.
Qed.

Lemma with_requests_app st reqs1 reqs2 :
  with_requests (with_requests st reqs1) reqs2
  = with_requests st (reqs1 ++ reqs2).
Proof. unfold with_requests. simpl. by rewrite <- app_assoc. Qed.

(** Line 53. *)
Lemma type_secondary_ok (types : list string) st :
  (if (1 <? length types)%nat then getitem types 1 else ret "") st
  = (Ok (nth 1 types ""), st).
Proof. by destruct types as [|t1 [|t2 types]]. Qed.

Lemma writerow_record (c1 c2 c3 c4 c5 c6 c7 c8 c9 c10 c11 c12 c13 c14 c15
    c16 c17 : cell) st :
  writerow
    [ ("id", c1); ("pokedex_number", c2); ("name", c3);
      ("type_primary", c4); ("type_secondary", c5); ("hp", c6);
      ("attack", c7); ("defense", c8); ("special_attack", c9);
      ("special_defense", c10); ("speed", c11); ("height", c12);
      ("weight", c13); ("description", c14); ("evolution_from", c15);
      ("evolution_to", c16); ("image_url", c17) ] st
  = let row := [c1; c2; c3; c4; c5; c6; c7; c8; c9; c10; c11; c12; c13;
                c14; c15; c16; c17] in
    if forallb cell_encodable row then (Ok tt, with_row st row)
    else (Raise UnicodeEncodeError, st).
Proof. reflexivity. Qed.

Lemma eval_ok {A} (r : result A) a st : r = Ok a -> eval r st = (Ok a, st).
Proof. by intros ->. Qed.

Lemma eval_raise {A} (r : result A) e st :
  r = Raise e -> eval r st = (Raise e, st).
Proof. by intros ->. Qed.

Lemma tenth_cell_ok raw x : truediv raw 10 = Ok x -> tenth_cell raw = CFloat x.
Proof. unfold tenth_cell. by intros ->. Qed.

(** An iteration that is answered, finds the required fields and can write
    its row does so. *)
Lemma process_pokemon_ok id st p s evo_dict st3 :
  receives w st id p s evo_dict st3 ->
  has_required_fields p ->
  writable id p s evo_dict ->
  process_pokemon w id st
  = (Ok tt, with_row st3 (written_row id p s evo_dict)).
Proof.
  intros (Hp & Hs & Hd) [Htypes Hstats] [[[h Hh] [wt Hwt]] Hencodable].
  unfold required_stats in Hstats.
  repeat match goal with
         | H : Forall _ (_ :: _) |- _ =>
             apply Forall_cons in H as [?%stat_lookup H]
         end.
  repeat match goal with H : exists _, _ |- _ => destruct H as (? & ? & ?) end.
  unfold process_pokemon.
  rewrite (bind_ok _ _ _ _ _ (fetch_data_ok _ _ _ _ _ Hp)).
  destruct (pd_types p) as [|t1 types] eqn:Ht; [done|].
  unfold getitem at 1. simpl (_ !! 0). rewrite (bind_ok _ _ _ t1 _ eq_refl).
  rewrite (bind_ok _ _ _ _ _ (type_secondary_ok _ _)).
  repeat (erewrite bind_ok; [|by apply dict_getitem_ok]).
  rewrite (bind_ok _ _ _ _ _ (eval_ok _ _ _ Hh)).
  rewrite (bind_ok _ _ _ _ _ (eval_ok _ _ _ Hwt)).
  erewrite bind_ok; [|by apply fetch_data_ok].
  rewrite with_requests_app. simpl app.
  rewrite (bind_ok _ _ _ _ _ Hd).
  rewrite writerow_record. cbv zeta.
  match goal with
  | |- (if forallb cell_encodable ?row then _ else _) = _ =>
      assert (Hrow : written_row id p s evo_dict = row)
  end.
  { unfold written_row.
    rewrite (tenth_cell_ok _ _ Hh), (tenth_cell_ok _ _ Hwt), Ht.
    by repeat match goal with
              | H : stat_cell _ _ = _ |- _ => rewrite H; clear H
              end. }
  by rewrite <- Hrow, Hencodable.
Qed.

Lemma bind_inv {A B} (m : M A) (k : A -> M B) st b st' :
  bind m k st = (Ok b, st') ->
  exists a st1, m st = (Ok a, st1) /\ k a st1 = (Ok b, st').
Proof.
  unfold bind. destruct (m st) as [[a|e] st1]; [|done]. by exists a, st1.
Qed.

Lemma fetch_data_inv {A} kind (api : list request -> string -> option A)
    url st payload st1 :
  fetch_data kind api url st = (Ok payload, st1) ->
  api (requests st) url = Some payload /\ st1 = with_requests st [(kind, url)].
Proof.
  unfold fetch_data. destruct (api (requests st) url); [|done].
  by intros [= -> <-].
Qed.

Lemma getitem_inv {A} (l : list A) i st x st1 :
  getitem l i st = (Ok x, st1) -> l !! i = Some x /\ st1 = st.
Proof. unfold getitem. destruct (l !! i); [|done]. by intros [= -> ->]. Qed.

Lemma dict_getitem_inv {V} (d : gmap string V) key st v st1 :
  dict_getitem d key st = (Ok v, st1) -> d !! key = Some v /\ st1 = st.
Proof.
  unfold dict_getitem. destruct (d !! key); [|done]. by intros [= -> ->].
Qed.

Lemma lookup_stat_In p key v :
  dict_of_pairs (pd_stats p) !! key = Some v -> In key (map fst (pd_stats p)).
Proof. intros H. apply dict_of_pairs_is_Some. by eexists. Qed.

Lemma eval_inv {A} (r : result A) st a st1 :
  eval r st = (Ok a, st1) -> r = Ok a /\ st1 = st.
Proof. unfold eval. by intros [= -> ->]. Qed.

(** Conversely, a row is only written after these answers. *)
Lemma process_pokemon_inv id st st' :
  process_pokemon w id st = (Ok tt, st') ->
  exists p s evo_dict st3,
    receives w st id p s evo_dict st3 /\
    (has_required_fields p /\ writable id p s evo_dict) /\
    st' = with_row st3 (written_row id p s evo_dict).
Proof.
  unfold process_pokemon. intros H.
  apply bind_inv in H as (p & st1 & [Hp ->]%fetch_data_inv & H).
  apply bind_inv in H as (t1 & ? & [Ht1 ->]%getitem_inv & H).
  apply bind_inv in H as (t2 & st2 & Ht2 & H).
  rewrite type_secondary_ok in Ht2. injection Ht2 as <- <-.
  apply bind_inv in H as (hp & ? & [Hhp ->]%dict_getitem_inv & H).
  apply bind_inv in H as (attack & ? & [Hattack ->]%dict_getitem_inv & H).
  apply bind_inv in H as (defense & ? & [Hdefense ->]%dict_getitem_inv & H).
  apply bind_inv in H as (sa & ? & [Hsa ->]%dict_getitem_inv & H).
  apply bind_inv in H as (sd & ? & [Hsd ->]%dict_getitem_inv & H).
  apply bind_inv in H as (speed & ? & [Hspeed ->]%dict_getitem_inv & H).
  apply bind_inv in H as (h & ? & [Hh ->]%eval_inv & H).
  apply bind_inv in H as (wt & ? & [Hwt ->]%eval_inv & H).
  apply bind_inv in H as (s & ? & [Hs ->]%fetch_data_inv & H).
  apply bind_inv in H as (evo_dict & st3 & Hd & H).
  rewrite with_requests_app in Hd. simpl app in Hd.
  rewrite writerow_record in H. cbv zeta in H.
  match type of H with
  | (if forallb cell_encodable ?row then _ else _) = _ =>
      assert (Hrow : written_row id p s evo_dict = row)
  end.
  { unfold written_row, stat_cell.
    rewrite (tenth_cell_ok _ _ Hh), (tenth_cell_ok _ _ Hwt).
    rewrite Hhp, Hattack, Hdefense, Hsa, Hsd, Hspeed. simpl.
    destruct (pd_types p) as [|? ?]; [done|]. simpl in Ht1.
    by injection Ht1 as ->. }
  rewrite <- Hrow in H.
  destruct (forallb cell_encodable _) eqn:Hencodable; [|done].
  injection H as <-.
  exists p, s, evo_dict, st3. split; [done|]. split; [|done]. split.
  - split.
    + intros Hnil. by rewrite Hnil in Ht1.
    + unfold required_stats.
      repeat (apply Forall_cons; split; [by eapply lookup_stat_In|]).
      apply Forall_nil_2.
  - split; [|done]. split; by eexists.
Qed.

Lemma existsb_eqb_In key (l : list string) :
  existsb (String.eqb key) l = true <-> In key l.
Proof.
  rewrite existsb_exists. split.
  - intros (x & Hx & ->%String.eqb_eq). exact Hx.
  - intros H. exists key. split; [exact H|apply String.eqb_refl].
Qed.

Lemma stat_present p key :
  existsb (String.eqb key) (map fst (pd_stats p)) = true ->
  exists v, dict_of_pairs (pd_stats p) !! key = Some v.
Proof. intros H%existsb_eqb_In. by apply dict_of_pairs_is_Some. Qed.

Lemma stat_absent p key :
  existsb (String.eqb key) (map fst (pd_stats p)) = false ->
  dict_of_pairs (pd_stats p) !! key = None.
Proof.
  intros H. apply eq_None_not_Some. intros Hs%dict_of_pairs_is_Some.
  apply existsb_eqb_In in Hs. congruence.
Qed.

(** Line 52 raises on an empty list of types. *)
Lemma process_pokemon_no_type id st p :
  pokemon_api w (requests st) (pokemon_url id) = Some p ->
  pd_types p = [] ->
  process_pokemon w id st
  = (Raise IndexError, with_requests st [(PokemonResource, pokemon_url id)]).
Proof.
  intros Hp Ht. unfold process_pokemon.
  rewrite (bind_ok _ _ _ _ _ (fetch_data_ok _ _ _ _ _ Hp)).
  by rewrite Ht.
Qed.

(** Lines 55-60 raise at the first key that is missing. *)
Lemma process_pokemon_missing_stat id st p key :
  pokemon_api w (requests st) (pokemon_url id) = Some p ->
  pd_types p <> [] ->
  first_missing_stat p = Some key ->
  process_pokemon w id st
  = (Raise (KeyError key),
     with_requests st [(PokemonResource, pokemon_url id)]).
Proof.
  intros Hp Ht Hkey. unfold process_pokemon.
  rewrite (bind_ok _ _ _ _ _ (fetch_data_ok _ _ _ _ _ Hp)).
  destruct (pd_types p) as [|t1 types] eqn:Htypes; [done|].
  unfold getitem at 1. simpl (_ !! 0). rewrite (bind_ok _ _ _ t1 _ eq_refl).
  rewrite (bind_ok _ _ _ _ _ (type_secondary_ok _ _)).
  unfold first_missing_stat, required_stats in Hkey.
  repeat match type of Hkey with
    | find ?f (?k :: ?l) = _ =>
        let Hb := fresh "Hb" in
        change (find f (k :: l)) with (if f k then Some k else find f l) in Hkey;
        cbv beta in Hkey;
        destruct (existsb (String.eqb k) (map fst (pd_stats p))) eqn:Hb;
        simpl negb in Hkey; cbv iota in Hkey;
        [ apply stat_present in Hb as [? Hb];
          rewrite (bind_ok _ _ _ _ _ (dict_getitem_ok _ _ _ _ Hb))
        | injection Hkey as <-; apply stat_absent in Hb;
          by rewrite (bind_raise _ _ _ _ _ (dict_getitem_raise _ _ _ Hb)) ]
    end.
  discriminate Hkey.
Qed.

Lemma first_missing_stat_exists p key :
  In key required_stats -> ~ In key (map fst (pd_stats p)) ->
  exists key', first_missing_stat p = Some key'.
Proof.
  intros Hreq Habs. unfold first_missing_stat.
  destruct (find _ required_stats) as [key'|] eqn:Hfind; [by eexists|].
  pose proof (find_none _ _ Hfind key Hreq) as Hnone. simpl in Hnone.
  apply negb_false_iff, existsb_eqb_In in Hnone. contradiction.
Qed.

Lemma first_missing_stat_absent p key :
  first_missing_stat p = Some key ->
  In key required_stats /\ ~ In key (map fst (pd_stats p)).
Proof.
  unfold first_missing_stat. intros [Hin Hb]%find_some. split; [exact Hin|].
  apply negb_true_iff in Hb. intros Hk%existsb_eqb_In. congruence.
Qed.

(** The loop stops at the first iteration that raises. *)
Lemma for_each_raise {A} (body : A -> M unit) x rest st e st' :
  body x st = (Raise e, st') ->
  for_each (x :: rest) body st = (Raise e, st').
Proof. intros H. simpl. by apply bind_raise. Qed.

End RunLemmas.

(* ===================================================================== *)
(** ** Triples for the run *)
(* ===================================================================== *)

Section Triples.

Lemma hoare_bind {A B} (P : run_state -> Prop) (m : M A)
    (Q : A -> run_state -> Prop) (k : A -> M B)
    (R : B -> run_state -> Prop) (E : error -> run_state -> Prop) :
  hoare P m Q E -> (forall a, hoare (Q a) (k a) R E) ->
  hoare P (bind m k) R E.
Proof.
  intros Hm Hk st HP. specialize (Hm st HP). unfold bind.
  destruct (m st) as [[a|e] st1]; [|exact Hm]. by apply Hk.
Qed.

Lemma hoare_for_each {A} (I : run_state -> Prop)
    (E : error -> run_state -> Prop) (body : A -> M unit) (l : list A) :
  (forall x, hoare I (body x) (fun _ => I) E) ->
  hoare I (for_each l body) (fun _ => I) E.
Proof.
  intros Hbody. induction l as [|x l IH]; simpl.
  - by intros st HI.
  - eapply hoare_bind; [apply Hbody|]. intros ?. exact IH.
Qed.

Lemma silent_ret {A} (a : A) : silent (ret a).
Proof. by intros st. Qed.

Lemma silent_getitem {A} (l : list A) i : silent (getitem l i).
Proof. intros st. unfold getitem. by destruct (l !! i). Qed.

Lemma silent_dict_getitem {V} (d : gmap string V) key :
  silent (dict_getitem d key).
Proof. intros st. unfold dict_getitem. by destruct (d !! key). Qed.

Lemma silent_writerow rowdict : silent (writerow rowdict).
Proof.
  intros st. unfold writerow. destruct (forallb _ rowdict); [|done].
  by destruct (forallb _ _).
Qed.

Lemma silent_eval {A} (r : result A) : silent (eval r).
Proof. by intros st. Qed.

(** ** Invariants of an iteration

    [I] holds between the statements of an iteration and [W] when it has
    raised; both only depend on the cache and on the requests. *)
Context (w : world) (I W : run_state -> Prop).
Hypothesis I_W : forall st, I st -> W st.
Hypothesis I_silent : forall st st',
  evo_cache st' = evo_cache st -> requests st' = requests st -> I st -> I st'.
Hypothesis W_request : forall st r,
  fst r <> ChainResource -> I st -> W (with_requests st [r]).
Hypothesis I_request : forall st r,
  fst r <> ChainResource -> I st -> I (with_requests st [r]).
Hypothesis I_get_or_fetch : forall url,
  hoare I (get_or_fetch w url) (fun _ => I) (fun _ => W).

Lemma hoare_silent {A} (m : M A) :
  silent m -> hoare I m (fun _ => I) (fun _ => W).
Proof.
  intros Hm st HI. destruct (Hm st) as [Hc Hr].
  destruct (m st) as [[a|e] st1]; simpl in *.
  - by apply (I_silent st).
  - by apply I_W, (I_silent st).
Qed.

Lemma hoare_fetch_data {A} kind (api : list request -> string -> option A) url :
  kind <> ChainResource ->
  hoare I (fetch_data kind api url) (fun _ => I) (fun _ => W).
Proof.
  intros Hkind st HI. unfold fetch_data.
  destruct (api (requests st) url).
  - by apply (I_request st (kind, url)).
  - by apply (W_request st (kind, url)).
Qed.

Lemma hoare_process_pokemon id :
  hoare I (process_pokemon w id) (fun _ => I) (fun _ => W).
Proof.
  unfold process_pokemon.
  eapply hoare_bind; [by apply hoare_fetch_data|]. intros p.
  eapply hoare_bind; [apply hoare_silent, silent_getitem|]. intros t1.
  eapply hoare_bind.
  { apply hoare_silent. destruct (1 <? _)%nat;
      [apply silent_getitem|apply silent_ret]. }
  intros t2.
  do 6 (eapply hoare_bind; [apply hoare_silent, silent_dict_getitem|]; intros ?).
  do 2 (eapply hoare_bind; [apply hoare_silent, silent_eval|]; intros ?).
  eapply hoare_bind; [by apply hoare_fetch_data|]. intros s.
  eapply hoare_bind; [apply I_get_or_fetch|]. intros evo_dict.
  apply hoare_silent, silent_writerow.
Qed.

Lemma hoare_main :
  hoare I (main w) (fun _ => I) (fun _ => W).
Proof.
  unfold main. eapply hoare_bind.
  - apply hoare_silent, silent_writerow.
  - intros ?. apply hoare_for_each, hoare_process_pokemon.
Qed.

End Triples.

(* ===================================================================== *)
(** ** The evolution cache *)
(* ===================================================================== *)

Section Cache.

Context (w : world).

Lemma get_or_fetch_hit url st evo_dict :
  evo_cache st !! url = Some evo_dict ->
  get_or_fetch w url st = (Ok evo_dict, st).
Proof. unfold get_or_fetch. by intros ->. Qed.

Lemma get_or_fetch_miss url st :
  evo_cache st !! url = None ->
  get_or_fetch w url st
  = match chain_api w (requests st) url with
    | Some chain =>
        (Ok (parse_evolution_chain chain),
         {| evo_cache :=
              <[url := parse_evolution_chain chain]> (evo_cache st);
            requests := requests st ++ [(ChainResource, url)];
            csvfile := csvfile st |})
    | None =>
        (Raise (HTTPError url), with_requests st [(ChainResource, url)])
    end.
Proof.
  unfold get_or_fetch. intros ->. unfold bind, fetch_data.
  by destruct (chain_api w (requests st) url).
Qed.

Lemma chain_fetches_app url reqs1 reqs2 :
  chain_fetches url (reqs1 ++ reqs2)
  = chain_fetches url reqs1 + chain_fetches url reqs2.
Proof. unfold chain_fetches. by rewrite filter_app, length_app. Qed.

Lemma chain_fetches_other url r :
  fst r <> ChainResource -> chain_fetches url [r] = 0.
Proof.
  intros Hr. unfold chain_fetches. rewrite filter_cons_False; [done|].
  intros ->. by apply Hr.
Qed.

Lemma chain_fetches_same url : chain_fetches url [(ChainResource, url)] = 1.
Proof. unfold chain_fetches. by rewrite filter_cons_True. Qed.

Lemma chain_fetches_different url url' :
  url <> url' -> chain_fetches url' [(ChainResource, url)] = 0.
Proof.
  intros Hne. unfold chain_fetches. rewrite filter_cons_False; [done|].
  intros [= ->]. by apply Hne.
Qed.

Lemma cache_covers_request st r :
  fst r <> ChainResource -> cache_covers st ->
  cache_covers (with_requests st [r]).
Proof.
  intros Hr [Honce Hcov]. split.
  - intros url. simpl. rewrite chain_fetches_app, chain_fetches_other by done.
    rewrite Nat.add_0_r. apply Honce.
  - intros url. simpl. rewrite chain_fetches_app, chain_fetches_other by done.
    rewrite Nat.add_0_r. apply Hcov.
Qed.

Lemma cache_covers_get_or_fetch url :
  hoare cache_covers (get_or_fetch w url)
    (fun _ => cache_covers) (fun _ => fetched_once).
Proof.
  intros st [Honce Hcov].
  destruct (evo_cache st !! url) as [evo_dict|] eqn:Hlookup.
  - by rewrite (get_or_fetch_hit _ _ _ Hlookup).
  - rewrite (get_or_fetch_miss _ _ Hlookup).
    assert (Hzero : chain_fetches url (requests st) = 0).
    { destruct (chain_fetches url (requests st)) as [|n] eqn:Hn; [done|].
      destruct (Hcov url) as [? Hsome]; [lia|]. congruence. }
    assert (Hcount : forall url',
      chain_fetches url' (requests st ++ [(ChainResource, url)])
      = if decide (url = url') then 1 else chain_fetches url' (requests st)).
    { intros url'. rewrite chain_fetches_app. case_decide as Heq.
      - subst url'. rewrite Hzero, chain_fetches_same. done.
      - rewrite chain_fetches_different by done. lia. }
    destruct (chain_api w (requests st) url) as [chain|].
    + split.
      * intros url'. simpl. rewrite Hcount. case_decide; [done|apply Honce].
      * intros url'. simpl. rewrite Hcount. case_decide as Heq.
        -- subst url'. rewrite lookup_insert_eq. by eexists.
        -- rewrite lookup_insert_ne by done. apply Hcov.
    + intros url'. simpl. rewrite Hcount. case_decide; [done|apply Honce].
Qed.

Lemma fetched_once_main :
  hoare cache_covers (main w) (fun _ => cache_covers) (fun _ => fetched_once).
Proof.
  apply hoare_main.
  - by intros st [? _].
  - intros st st' Hc Hr [Honce Hcov]. split.
    + intros url. rewrite Hr. apply Honce.
    + intros url. rewrite Hr, Hc. apply Hcov.
  - intros st r Hr HI. by apply cache_covers_request.
  - apply cache_covers_request.
  - apply cache_covers_get_or_fetch.
Qed.

Lemma cache_covers_initial : cache_covers initial_state.
Proof.
  split; intros url; unfold chain_fetches; simpl; [lia|]. intros H. lia.
Qed.

(** During an iteration the cache only gains entries. *)
Lemma process_pokemon_cache_grows id st :
  evo_cache st ⊆ evo_cache (snd (process_pokemon w id st)).
Proof.
  assert (Hget : forall url,
    hoare (fun st' => evo_cache st ⊆ evo_cache st') (get_or_fetch w url)
      (fun _ st' => evo_cache st ⊆ evo_cache st')
      (fun _ st' => evo_cache st ⊆ evo_cache st')).
  { intros url st1 Hsub.
    destruct (evo_cache st1 !! url) as [evo_dict|] eqn:Hlookup.
    - by rewrite (get_or_fetch_hit _ _ _ Hlookup).
    - rewrite (get_or_fetch_miss _ _ Hlookup).
      destruct (chain_api w (requests st1) url); simpl; [|done].
      etrans; [exact Hsub|]. by apply insert_subseteq. }
  pose proof (hoare_process_pokemon w
    (fun st' => evo_cache st ⊆ evo_cache st')
    (fun st' => evo_cache st ⊆ evo_cache st')) as H.
  specialize (H (fun _ Hsub => Hsub)).
  specialize (H (fun st0 st' Hc _ Hsub => eq_ind_r (fun c => _ ⊆ c) Hsub Hc)).
  specialize (H (fun _ _ _ Hsub => Hsub) (fun _ _ _ Hsub => Hsub) Hget id st).
  specialize (H (reflexivity _)).
  by destruct (process_pokemon w id st) as [[[]|e] st'].
Qed.

Lemma for_each_cache_grows ids : forall st,
  evo_cache st ⊆ evo_cache (snd (for_each ids (process_pokemon w) st)).
Proof.
  induction ids as [|id ids IH]; intros st; simpl; [done|].
  pose proof (process_pokemon_cache_grows id st) as Hstep.
  unfold bind. destruct (process_pokemon w id st) as [[[]|e] st1]; simpl in *.
  - etrans; [exact Hstep|apply IH].
  - exact Hstep.
Qed.

End Cache.

(** C3.  A lookup of a URL that is not in the cache sends one request and,
    when it is answered, stores the parsed chain under the URL; a lookup of
    a URL in the cache returns the stored mapping and leaves the state,
    hence the log of requests, as it is.  Over the whole run, whether it
    ends or raises, no chain URL is requested more than once, and the cache
    before any iteration, or before any stretch of iterations, is included
    in the cache after it: no entry is removed or replaced, so a mapping
    once stored is the one every later lookup of its URL returns. *)
Theorem evo_cache_fetches_once (w : world) :
  (forall url st,
     evo_cache st !! url = None ->
     get_or_fetch w url st
     = match chain_api w (requests st) url with
       | Some chain =>
           (Ok (parse_evolution_chain chain),
            {| evo_cache :=
                 <[url := parse_evolution_chain chain]> (evo_cache st);
               requests := requests st ++ [(ChainResource, url)];
               csvfile := csvfile st |})
       | None =>
           (Raise (HTTPError url), with_requests st [(ChainResource, url)])
       end) /\
  (forall url st evo_dict,
     evo_cache st !! url = Some evo_dict ->
     get_or_fetch w url st = (Ok evo_dict, st)) /\
  (forall url,
     chain_fetches url (requests (snd (main w initial_state))) <= 1) /\
  (forall id st,
     evo_cache st ⊆ evo_cache (snd (process_pokemon w id st))) /\
  (forall ids st,
     evo_cache st ⊆ evo_cache (snd (for_each ids (process_pokemon w) st))) /\
  (forall ids st url evo_dict,
     evo_cache st !! url = Some evo_dict ->
     let st' := snd (for_each ids (process_pokemon w) st) in
     get_or_fetch w url st' = (Ok evo_dict, st')).
Proof.
  split; [apply get_or_fetch_miss|].
  split; [apply get_or_fetch_hit|].
  split; [|split; [apply process_pokemon_cache_grows|
                   split; [apply for_each_cache_grows|]]].
  - intros url.
    pose proof (fetched_once_main w initial_state cache_covers_initial) as H.
    destruct (main w initial_state) as [[[]|e] st']; simpl.
    + by destruct H as [H _].
    + apply H.
  - intros ids st url evo_dict Hstored st'. apply get_or_fetch_hit.
    eapply lookup_weaken; [exact Hstored|apply for_each_cache_grows].
Qed.

Lemma evo_cache_fetches_once_witness :
  fst (main uniform_world initial_state) = Ok tt /\
  length (requests (snd (main uniform_world initial_state))) = 303 /\
  chain_fetches "chain/1" (requests (snd (main uniform_world initial_state))) <= 1.
Proof.
  split; [vm_compute; reflexivity|]. split; [vm_compute; reflexivity|].
  apply (proj1 (proj2 (proj2 (evo_cache_fetches_once uniform_world)))).
Defined.

(* ===================================================================== *)
(** ** Descriptions *)
(* ===================================================================== *)

Section Descriptions.

Lemma prefix_empty s : String.prefix "" s = true.
Proof. by destruct s. Qed.

(** Replacing a one-character string works character by character. *)
Lemma replace_from_char a new c rest :
  replace_from (String a "") new 0 (String c rest)
  = if Ascii.eqb a c
    then (new +:+ replace_from (String a "") new 0 rest)%string
    else String c (replace_from (String a "") new 0 rest).
Proof.
  simpl. destruct (ascii_dec a c) as [->|Hne].
  - by rewrite prefix_empty, Ascii.eqb_refl.
  - apply Ascii.eqb_neq in Hne. by rewrite Hne.
Qed.

(** The two calls of [replace] do what the specification says. *)
Lemma normalize_spec text : normalize text = spec_normalize text.
Proof.
  unfold normalize, str_replace.
  induction text as [|c text IH]; [reflexivity|].
  rewrite replace_from_char. simpl spec_normalize.
  rewrite (Ascii.eqb_sym c newline), (Ascii.eqb_sym c formfeed).
  destruct (Ascii.eqb newline c) eqn:Hnl.
  - change (" " +:+ ?s)%string with (String " "%char s).
    rewrite replace_from_char.
    change (Ascii.eqb formfeed " ") with false. cbv iota. by rewrite IH.
  - rewrite replace_from_char. destruct (Ascii.eqb formfeed c); by rewrite IH.
Qed.

Lemma qualifies_matches entry : qualifies entry = true <-> matches entry.
Proof.
  unfold qualifies, matches.
  by rewrite andb_true_iff, orb_true_iff, !String.eqb_eq.
Qed.

Lemma find_description_first before entry after description :
  Forall (fun e => ~ matches e) before -> matches entry ->
  find_description (before ++ entry :: after) description
  = spec_normalize (flavor_text entry).
Proof.
  intros Hbefore Hentry. induction Hbefore as [|e before He _ IH]; simpl.
  - apply qualifies_matches in Hentry. rewrite Hentry. apply normalize_spec.
  - destruct (qualifies e) eqn:Hq; [|exact IH].
    by apply qualifies_matches in Hq.
Qed.

Lemma find_description_none entries description :
  Forall (fun e => ~ matches e) entries ->
  find_description entries description = description.
Proof.
  induction 1 as [|e entries He _ IH]; simpl; [done|].
  destruct (qualifies e) eqn:Hq; [|exact IH].
  by apply qualifies_matches in Hq.
Qed.

End Descriptions.

(* ===================================================================== *)
(** ** The rows of a run *)
(* ===================================================================== *)

Section Rows.

Context (w : world).

Lemma get_or_fetch_csvfile url st :
  csvfile (snd (get_or_fetch w url st)) = csvfile st.
Proof.
  destruct (evo_cache st !! url) as [evo_dict|] eqn:Hlookup.
  - by rewrite (get_or_fetch_hit _ _ _ _ Hlookup).
  - rewrite (get_or_fetch_miss _ _ _ Hlookup).
    by destruct (chain_api w (requests st) url).
Qed.

Lemma receives_csvfile st id p s evo_dict st3 :
  receives w st id p s evo_dict st3 -> csvfile st3 = csvfile st.
Proof.
  intros (_ & _ & Hd).
  pose proof (get_or_fetch_csvfile (sd_evolution_chain_url s)
    (with_requests st [(PokemonResource, pokemon_url id);
                       (SpeciesResource, pd_species_url p)])) as H.
  by rewrite Hd in H.
Qed.

Lemma for_each_app_ok {A} (body : A -> M unit) l1 l2 : forall st0 st,
  for_each l1 body st0 = (Ok tt, st) ->
  for_each (l1 ++ l2) body st0 = for_each l2 body st.
Proof.
  induction l1 as [|x l1 IH]; intros st0 st; simpl.
  - by intros [= <-].
  - intros (a & st1 & Hx & Hrest)%bind_inv.
    rewrite (bind_ok _ _ _ _ _ Hx). by apply IH.
Qed.

(** A loop that ends has appended one row per element, in order. *)
Lemma for_each_rows ids : forall st st',
  for_each ids (process_pokemon w) st = (Ok tt, st') ->
  exists rows,
    csvfile st' = csvfile st ++ rows /\
    Forall2 (fun id row => exists p s evo_dict, row = written_row id p s evo_dict)
      ids rows.
Proof.
  induction ids as [|id ids IH]; intros st st'; simpl.
  - intros [= <-]. exists []. by rewrite app_nil_r.
  - intros (a & st1 & Hid & Hrest)%bind_inv. destruct a.
    apply process_pokemon_inv in Hid
      as (p & s & evo_dict & st3 & Hrec & _ & ->).
    apply IH in Hrest as (rows & Hcsv & Hrows).
    exists (written_row id p s evo_dict :: rows). split.
    + rewrite Hcsv. simpl. rewrite (receives_csvfile _ _ _ _ _ _ Hrec).
      by rewrite <- app_assoc.
    + constructor; [by exists p, s, evo_dict|done].
Qed.

Lemma range_lookup start stop k :
  (k < Z.to_nat (stop - start))%nat ->
  range start stop !! k = Some (start + Z.of_nat k)%Z.
Proof.
  intros Hk. unfold range.
  change (map ?f ?l) with (f <$> l).
  by rewrite list_lookup_fmap, lookup_seq_lt.
Qed.

Lemma range_length start stop :
  length (range start stop) = Z.to_nat (stop - start).
Proof. unfold range. by rewrite length_map, length_seq. Qed.

End Rows.

(* ===================================================================== *)
(** ** Division of integers *)
(* ===================================================================== *)

Section Division.

Local Open Scope Z_scope.

Lemma round_half_even_cases num den :
  0 < den ->
  let m := round_half_even num den in
  (m = num / den \/ m = num / den + 1) /\
  2 * Z.abs (m * den - num) <= den /\
  (2 * Z.abs (m * den - num) = den -> Z.even m = true).
Proof.
  intros Hden. unfold round_half_even.
  pose proof (Z.div_mod num den ltac:(lia)) as Hdiv.
  pose proof (Z.mod_pos_bound num den Hden) as Hmod.
  set (q := num / den) in *. set (r := num mod den) in *.
  destruct (Z.ltb_spec (2 * r) den) as [Hlt|Hge].
  - split; [by left|]. split; [lia|]. lia.
  - destruct (Z.ltb_spec den (2 * r)) as [Hgt|Hle].
    + split; [by right|]. split; [lia|]. lia.
    + destruct (Z.even q) eqn:Heven.
      * split; [by left|]. split; [lia|]. done.
      * split; [by right|]. split; [lia|]. intros _.
        rewrite Z.even_add, Heven. done.
Qed.

Lemma round_half_even_nearest num den m' :
  0 < den ->
  Z.abs (round_half_even num den * den - num) <= Z.abs (m' * den - num).
Proof.
  intros Hden.
  destruct (round_half_even_cases num den Hden) as (_ & Hhalf & _).
  set (m := round_half_even num den) in *.
  destruct (Z.eq_dec m' m) as [->|Hne]; [lia|].
  assert (Hk : den <= Z.abs ((m' - m) * den)).
  { rewrite Z.abs_mul. rewrite (Z.abs_eq den) by lia. nia. }
  replace (m' * den - num) with ((m' - m) * den + (m * den - num)) by ring.
  lia.
Qed.

Lemma round_half_even_exact k den :
  0 < den -> round_half_even (k * den) den = k.
Proof.
  intros Hden. unfold round_half_even.
  rewrite Z.div_mul, Z.mod_mul by lia.
  destruct (Z.ltb_spec (2 * 0) den); [done|lia].
Qed.

Lemma scale_pos a b e :
  0 < a -> 0 < b -> 0 < fst (scale a b e) /\ 0 < snd (scale a b e).
Proof.
  intros Ha Hb. unfold scale. destruct (Z.leb_spec 0 e); simpl.
  - split; [done|]. apply Z.mul_pos_pos; [done|]. by apply Z.pow_pos_nonneg.
  - split; [|done]. apply Z.mul_pos_pos; [done|]. apply Z.pow_pos_nonneg; lia.
Qed.

(** Lowering the exponent by one doubles the fraction. *)
Lemma scale_pred a b e :
  fst (scale a b (e - 1)) * snd (scale a b e)
  = 2 * fst (scale a b e) * snd (scale a b (e - 1)).
Proof.
  unfold scale.
  destruct (Z.leb_spec 0 e) as [He|He];
    destruct (Z.leb_spec 0 (e - 1)) as [He'|He']; cbn [fst snd]; try lia.
  - assert (Hpow : 2 ^ e = 2 * 2 ^ (e - 1)).
    { rewrite <- Z.pow_succ_r by lia. f_equal. lia. }
    rewrite Hpow. ring.
  - assert (e = 0) as -> by lia.
    change (2 ^ 0) with 1. change (2 ^ (- (0 - 1))) with 2. ring.
  - assert (Hpow : 2 ^ (- (e - 1)) = 2 * 2 ^ (- e)).
    { rewrite <- Z.pow_succ_r by lia. f_equal. lia. }
    rewrite Hpow. ring.
Qed.

(** The first guess of the exponent is at most one too high. *)
Lemma first_exponent_bounds a b :
  0 < a -> 0 < b ->
  let e0 := Z.log2 a - Z.log2 b - 52 in
  2 ^ 51 * snd (scale a b e0) < fst (scale a b e0) < 2 ^ 53 * snd (scale a b e0).
Proof.
  intros Ha Hb e0.
  destruct (Z.log2_spec a Ha) as [Ha1 Ha2].
  destruct (Z.log2_spec b Hb) as [Hb1 Hb2].
  pose proof (Z.log2_nonneg a) as Hla. pose proof (Z.log2_nonneg b) as Hlb.
  rewrite Z.pow_succ_r in Ha2, Hb2 by done.
  set (la := Z.log2 a) in *. set (lb := Z.log2 b) in *.
  change (2 ^ 51) with 2251799813685248.
  change (2 ^ 53) with 9007199254740992.
  unfold scale. destruct (Z.leb_spec 0 e0) as [He|He]; cbn [fst snd].
  - assert (Hpow : 2 ^ la = 4503599627370496 * (2 ^ lb * 2 ^ e0)).
    { replace la with (52 + (lb + e0)) by lia.
      rewrite !Z.pow_add_r by lia. reflexivity. }
    assert (HE : 0 < 2 ^ e0) by (apply Z.pow_pos_nonneg; lia).
    generalize dependent (2 ^ la). generalize dependent (2 ^ lb).
    generalize dependent (2 ^ e0). intros E HE P HP1 HP2 A HA1 HA2 ->.
    assert (P * E <= b * E) by (apply Z.mul_le_mono_nonneg_r; lia).
    assert (b * E < 2 * P * E) by (apply Z.mul_lt_mono_pos_r; lia).
    lia.
  - assert (Hpow : 2 ^ la * 2 ^ (- e0) = 4503599627370496 * 2 ^ lb).
    { rewrite <- Z.pow_add_r by lia.
      replace (la + - e0) with (52 + lb) by lia.
      rewrite Z.pow_add_r by lia. reflexivity. }
    assert (HF : 0 < 2 ^ (- e0)) by (apply Z.pow_pos_nonneg; lia).
    generalize dependent (2 ^ la). generalize dependent (2 ^ lb).
    generalize dependent (2 ^ (- e0)). intros F HF P HP1 HP2 A HA1 HA2 Hpow.
    assert (A * F <= a * F) by (apply Z.mul_le_mono_nonneg_r; lia).
    assert (a * F < 2 * A * F) by (apply Z.mul_lt_mono_pos_r; lia).
    lia.
Qed.

(** Unless it is clamped, the exponent chosen puts the quotient in the
    binade of 53-bit significands. *)
Lemma quotient_exponent_binade a b :
  0 < a -> 0 < b ->
  -1074 < quotient_exponent a b ->
  let e := quotient_exponent a b in
  2 ^ 52 * snd (scale a b e) <= fst (scale a b e) < 2 ^ 53 * snd (scale a b e).
Proof.
  intros Ha Hb. unfold quotient_exponent.
  pose proof (first_exponent_bounds a b Ha Hb) as Hfirst. cbv zeta in Hfirst.
  set (e0 := Z.log2 a - Z.log2 b - 52) in *.
  pose proof (scale_pos a b e0 Ha Hb) as [Hn0 Hd0].
  pose proof (scale_pos a b (e0 - 1) Ha Hb) as [Hn1 Hd1].
  pose proof (scale_pred a b e0) as Hpred.
  cbv zeta.
  destruct (scale a b e0) as [n0 d0] eqn:Hs0. cbn [fst snd] in *.
  change (2 ^ 51) with 2251799813685248 in *.
  change (2 ^ 52) with 4503599627370496 in *.
  change (2 ^ 53) with 9007199254740992 in *.
  destruct (Z.ltb_spec (n0 / d0) 4503599627370496) as [Hq|Hq].
  - intros Hclamp. rewrite Z.max_l by lia.
    assert (n0 < 4503599627370496 * d0).
    { apply Z.nle_gt. intros Hle.
      assert (4503599627370496 <= n0 / d0)
        by (apply Z.div_le_lower_bound; lia).
      lia. }
    destruct (scale a b (e0 - 1)) as [n1 d1]. cbn [fst snd] in *.
    assert (2251799813685248 * d0 * d1 < n0 * d1)
      by (apply Z.mul_lt_mono_pos_r; lia).
    assert (n0 * d1 < 4503599627370496 * d0 * d1)
      by (apply Z.mul_lt_mono_pos_r; lia).
    split.
    + apply (Z.mul_le_mono_pos_r _ _ d0); lia.
    + apply (Z.mul_lt_mono_pos_r d0); lia.
  - intros Hclamp. rewrite Z.max_l by lia. rewrite Hs0. cbn [fst snd].
    assert (4503599627370496 * d0 <= n0).
    { apply Z.nlt_ge. intros Hlt.
      assert (n0 / d0 < 4503599627370496)
        by (apply Z.div_lt_upper_bound; lia).
      lia. }
    lia.
Qed.

(** Dividing by ten never gives a subnormal quotient. *)
Lemma quotient_exponent_ten a :
  0 < a -> -1074 < quotient_exponent a 10.
Proof.
  intros Ha. unfold quotient_exponent.
  pose proof (Z.log2_nonneg a).
  change (Z.log2 10) with 3.
  destruct (_ <? _); lia.
Qed.

(** The two outcomes of a division. *)
Lemma truediv_inv a b x :
  truediv a b = Ok x ->
  (a = 0 /\ x = Binary64 0 0) \/
  (a <> 0 /\
   let e := quotient_exponent (Z.abs a) (Z.pos b) in
   let m := round_half_even (fst (scale (Z.abs a) (Z.pos b) e))
              (snd (scale (Z.abs a) (Z.pos b) e)) in
   x = Binary64 (Z.sgn a * m) e /\
   (0 <= e -> m * 2 ^ e < 2 ^ 1024)).
Proof.
  unfold truediv. destruct (Z.eqb_spec a 0) as [->|Ha].
  - intros [= <-]. by left.
  - cbv zeta.
    destruct (Z.leb_spec 0 (quotient_exponent (Z.abs a) (Z.pos b))) as [He|He];
      cbn [andb].
    + destruct (Z.leb_spec (2 ^ 1024)
                  (round_half_even
                     (fst (scale (Z.abs a) (Z.pos b)
                             (quotient_exponent (Z.abs a) (Z.pos b))))
                     (snd (scale (Z.abs a) (Z.pos b)
                             (quotient_exponent (Z.abs a) (Z.pos b))))
                   * 2 ^ quotient_exponent (Z.abs a) (Z.pos b)));
        [done|].
      intros [= <-]. right. split; [done|]. split; [done|]. done.
    + intros [= <-]. right. split; [done|]. split; [done|]. lia.
Qed.

(** The significand of a quotient in a binade is positive. *)
Lemma round_half_even_pos num den :
  0 < den -> 2 ^ 52 * den <= num < 2 ^ 53 * den ->
  2 ^ 52 <= round_half_even num den <= 2 ^ 53.
Proof.
  intros Hden [Hlo Hhi].
  destruct (round_half_even_cases num den Hden) as (Hcases & _).
  change (2 ^ 52) with 4503599627370496 in *.
  change (2 ^ 53) with 9007199254740992 in *.
  assert (4503599627370496 <= num / den)
    by (apply Z.div_le_lower_bound; lia).
  assert (num / den < 9007199254740992)
    by (apply Z.div_lt_upper_bound; lia).
  cbv zeta in Hcases. lia.
Qed.

(** [int / 10], when it returns, returns the quotient correctly rounded. *)
Lemma truediv_correctly_rounded a x :
  a <> 0 -> truediv a 10 = Ok x -> correctly_rounded a 10 x.
Proof.
  intros Ha [[? _]|(_ & Hx)]%truediv_inv; [done|].
  cbv zeta in Hx. destruct Hx as [-> _].
  assert (Habs : 0 < Z.abs a) by lia.
  pose proof (quotient_exponent_binade (Z.abs a) 10 Habs ltac:(done)
                (quotient_exponent_ten _ Habs)) as Hbinade.
  cbv zeta in Hbinade.
  set (e := quotient_exponent (Z.abs a) 10) in *.
  pose proof (scale_pos (Z.abs a) 10 e Habs ltac:(done)) as [Hnum Hden].
  pose proof (round_half_even_pos _ _ Hden Hbinade) as Hm.
  pose proof (round_half_even_cases (fst (scale (Z.abs a) 10 e)) _ Hden)
    as (_ & _ & Heven).
  cbv zeta in Heven.
  unfold correctly_rounded. cbn [significand exponent].
  set (num := fst (scale (Z.abs a) 10 e)) in *.
  set (den := snd (scale (Z.abs a) 10 e)) in *.
  set (m := round_half_even num den) in *.
  assert (0 < m) by (change (2 ^ 52) with 4503599627370496 in Hm; lia).
  assert (Hsig : Z.abs (Z.sgn a * m) = m).
  { destruct a; [done|..]; cbn [Z.sgn]; lia. }
  rewrite Hsig.
  split; [|split; [done|split]].
  - destruct a; [done|..]; cbn [Z.sgn]; lia.
  - intros m'. by apply round_half_even_nearest.
  - done.
Qed.

(** A multiple of ten with a quotient of at most 53 bits is divided
    exactly. *)
Lemma truediv_ten_exact k :
  Z.abs k < 2 ^ 53 ->
  exists x, truediv (10 * k) 10 = Ok x /\
            exponent x <= 0 /\
            significand x = k * 2 ^ (- exponent x).
Proof.
  intros Hk. destruct (Z.eq_dec k 0) as [->|Hk0].
  { exists (Binary64 0 0). by repeat split. }
  assert (Habs : 0 < Z.abs (10 * k)) by lia.
  pose proof (quotient_exponent_binade _ 10 Habs ltac:(done)
                (quotient_exponent_ten _ Habs)) as Hbinade.
  cbv zeta in Hbinade.
  unfold truediv. destruct (Z.eqb_spec (10 * k) 0) as [?|_]; [lia|].
  cbv zeta.
  set (e := quotient_exponent (Z.abs (10 * k)) 10) in *.
  assert (He : e <= 0).
  { apply Z.nlt_ge. intros He. revert Hbinade. unfold scale.
    destruct (Z.leb_spec 0 e); [|lia]. cbn [fst snd].
    assert (2 ^ 1 <= 2 ^ e) by (apply Z.pow_le_mono_r; lia).
    change (2 ^ 1) with 2 in *.
    change (2 ^ 52) with 4503599627370496 in *.
    change (2 ^ 53) with 9007199254740992 in *.
    generalize dependent (2 ^ e). intros E HE. lia. }
  assert (Hscale : fst (scale (Z.abs (10 * k)) 10 e)
                   = (Z.abs k * 2 ^ (- e)) * snd (scale (Z.abs (10 * k)) 10 e)).
  { unfold scale. destruct (Z.leb_spec 0 e); cbn [fst snd].
    - assert (e = 0) as -> by lia. change (2 ^ (- 0)) with 1.
      change (2 ^ 0) with 1. lia.
    - rewrite Z.abs_mul. change (Z.abs 10) with 10. ring. }
  pose proof (scale_pos (Z.abs (10 * k)) 10 e Habs ltac:(done)) as [_ Hden].
  rewrite Hscale, round_half_even_exact by done.
  assert (Hpow : 0 < 2 ^ (- e)) by (apply Z.pow_pos_nonneg; lia).
  assert (Hsmall : (0 <=? e) && (2 ^ 1024 <=? Z.abs k * 2 ^ (- e) * 2 ^ e)
                   = false).
  { destruct (Z.leb_spec 0 e); [|done]. cbn [andb].
    assert (e = 0) as -> by lia.
    change (2 ^ (- 0)) with 1. change (2 ^ 0) with 1.
    apply Z.leb_gt.
    assert (2 ^ 53 < 2 ^ 1024) by (apply Z.pow_lt_mono_r; lia). lia. }
  rewrite Hsmall. eexists. split; [done|]. cbn [significand exponent].
  split; [done|].
  rewrite Z.sgn_mul. change (Z.sgn 10) with 1.
  rewrite Z.mul_1_l, Z.mul_assoc, (Z.mul_comm (Z.sgn k)), Z.abs_sgn. done.
Qed.

(** Dividing by ten overflows for no integer below [2^1024]. *)
Lemma truediv_ten_no_overflow a :
  Z.abs a < 2 ^ 1024 -> exists x, truediv a 10 = Ok x.
Proof.
  intros Hsmall. unfold truediv. destruct (Z.eqb_spec a 0) as [?|Ha].
  { by eexists. }
  cbv zeta.
  assert (Habs : 0 < Z.abs a) by lia.
  pose proof (quotient_exponent_binade _ 10 Habs ltac:(done)
                (quotient_exponent_ten _ Habs)) as Hbinade.
  cbv zeta in Hbinade.
  set (e := quotient_exponent (Z.abs a) 10) in *.
  pose proof (scale_pos (Z.abs a) 10 e Habs ltac:(done)) as [_ Hden].
  pose proof (round_half_even_pos _ _ Hden Hbinade) as Hm.
  set (m := round_half_even _ _) in *.
  destruct (Z.leb_spec 0 e) as [He|He]; cbn [andb]; [|by eexists].
  destruct (Z.leb_spec (2 ^ 1024) (m * 2 ^ e)) as [Hbig|_]; [|by eexists].
  exfalso. revert Hbinade. unfold scale.
  destruct (Z.leb_spec 0 e); [|lia]. cbn [fst snd].
  assert (HE : 0 < 2 ^ e) by (apply Z.pow_pos_nonneg; lia).
  change (2 ^ 52) with 4503599627370496 in *.
  change (2 ^ 53) with 9007199254740992 in *.
  generalize dependent (2 ^ 1024). generalize dependent (2 ^ e).
  intros E HE T HT1 HT2.
  assert (m * E <= 9007199254740992 * E)
    by (apply Z.mul_le_mono_nonneg_r; lia).
  lia.
Qed.

(** A division only ever raises [OverflowError]. *)
Lemma truediv_raise_inv a b e : truediv a b = Raise e -> e = OverflowError.
Proof.
  unfold truediv. destruct (a =? 0); [done|]. cbv zeta.
  destruct (_ && _); [|done]. by intros [= <-].
Qed.

(** What [int / 10] returns is the tenth of the integer. *)
Lemma truediv_tenth_of raw x : truediv raw 10 = Ok x -> tenth_of raw x.
Proof.
  intros Hx. split; [|split].
  - intros ->. by injection Hx as <-.
  - intros Hraw. by apply truediv_correctly_rounded.
  - intros k -> Hk. destruct (truediv_ten_exact k Hk) as (x' & Hx' & He & Hs).
    rewrite Hx in Hx'. by injection Hx' as <-.
Qed.

(** Lowering the exponent by [d] multiplies the fraction by [2 ^ d]. *)
Lemma scale_lower a b e d :
  0 < a -> 0 < b -> 0 <= d ->
  fst (scale a b (e - d)) * snd (scale a b e)
  = 2 ^ d * fst (scale a b e) * snd (scale a b (e - d)).
Proof.
  intros Ha Hb. revert d. apply natlike_ind.
  - rewrite Z.sub_0_r. change (2 ^ 0) with 1. ring.
  - intros d Hd IH.
    pose proof (scale_pred a b (e - d)) as Hpred.
    replace (e - d - 1) with (e - Z.succ d) in Hpred by lia.
    pose proof (scale_pos a b (e - d) Ha Hb) as [_ Hpos].
    rewrite Z.pow_succ_r by done.
    apply (Z.mul_reg_r _ _ (snd (scale a b (e - d)))); [lia|].
    transitivity (fst (scale a b (e - Z.succ d)) * snd (scale a b (e - d))
                  * snd (scale a b e)); [ring|].
    rewrite Hpred.
    transitivity (2 * snd (scale a b (e - Z.succ d))
                  * (fst (scale a b (e - d)) * snd (scale a b e))); [ring|].
    rewrite IH. ring.
Qed.

(** A quotient lies in the binade of one exponent only. *)
Lemma binade_unique a b e1 e2 :
  0 < a -> 0 < b ->
  2 ^ 52 * snd (scale a b e1) <= fst (scale a b e1) < 2 ^ 53 * snd (scale a b e1) ->
  2 ^ 52 * snd (scale a b e2) <= fst (scale a b e2) < 2 ^ 53 * snd (scale a b e2) ->
  e1 <= e2.
Proof.
  intros Ha Hb H1 H2. apply Z.nlt_ge. intros Hlt.
  pose proof (scale_lower a b e1 (e1 - e2) Ha Hb ltac:(lia)) as Hlow.
  replace (e1 - (e1 - e2)) with e2 in Hlow by lia.
  pose proof (scale_pos a b e1 Ha Hb) as [Hn1 Hd1].
  pose proof (scale_pos a b e2 Ha Hb) as [Hn2 Hd2].
  assert (Hpow : 2 ^ 1 <= 2 ^ (e1 - e2)) by (apply Z.pow_le_mono_r; lia).
  change (2 ^ 1) with 2 in Hpow.
  change (2 ^ 52) with 4503599627370496 in *.
  change (2 ^ 53) with 9007199254740992 in *.
  generalize dependent (2 ^ (e1 - e2)). intros P Hlow HP.
  destruct (scale a b e1) as [n1 d1], (scale a b e2) as [n2 d2].
  cbn [fst snd] in *.
  assert (n2 * d1 < 9007199254740992 * d2 * d1)
    by (apply Z.mul_lt_mono_pos_r; lia).
  assert (2 * (4503599627370496 * d1) * d2 <= 2 * n1 * d2)
    by (apply Z.mul_le_mono_nonneg_r; lia).
  assert (2 * (n1 * d2) <= P * (n1 * d2))
    by (apply Z.mul_le_mono_nonneg_r; [apply Z.mul_nonneg_nonneg|]; lia).
  lia.
Qed.

(** The nearest integer, the even one of two, is unique. *)
Lemma nearest_lt_absurd num den m1 m2 :
  0 < den -> m1 < m2 ->
  (forall m', Z.abs (m1 * den - num) <= Z.abs (m' * den - num)) ->
  (forall m', Z.abs (m2 * den - num) <= Z.abs (m' * den - num)) ->
  (2 * Z.abs (m1 * den - num) = den -> Z.even m1 = true) ->
  (2 * Z.abs (m2 * den - num) = den -> Z.even m2 = true) ->
  False.
Proof.
  intros Hden Hlt Hn1 Hn2 He1 He2.
  pose proof (Hn1 m2) as H12. pose proof (Hn2 m1) as H21.
  pose proof (Hn1 (m1 + 1)) as Hup. pose proof (Hn2 (m2 - 1)) as Hdown.
  replace ((m1 + 1) * den - num) with (m1 * den - num + den) in Hup by ring.
  replace ((m2 - 1) * den - num) with (m2 * den - num - den) in Hdown by ring.
  assert (Hgap : m2 * den - num = (m1 * den - num) + (m2 - m1) * den) by ring.
  assert (Hk : den <= (m2 - m1) * den) by nia.
  set (x1 := m1 * den - num) in *. set (x2 := m2 * den - num) in *.
  set (q := (m2 - m1) * den) in *.
  assert (Hq : q = den) by lia.
  assert (Hnext : m2 = m1 + 1) by (unfold q in Hq; nia).
  assert (Ht1 : 2 * Z.abs x1 = den) by lia.
  assert (Ht2 : 2 * Z.abs x2 = den) by lia.
  specialize (He1 Ht1). specialize (He2 Ht2).
  rewrite Hnext, Z.even_add, He1 in He2. discriminate He2.
Qed.

Lemma nearest_unique num den m1 m2 :
  0 < den ->
  (forall m', Z.abs (m1 * den - num) <= Z.abs (m' * den - num)) ->
  (forall m', Z.abs (m2 * den - num) <= Z.abs (m' * den - num)) ->
  (2 * Z.abs (m1 * den - num) = den -> Z.even m1 = true) ->
  (2 * Z.abs (m2 * den - num) = den -> Z.even m2 = true) ->
  m1 = m2.
Proof.
  intros Hden Hn1 Hn2 He1 He2.
  destruct (Z.lt_trichotomy m1 m2) as [Hlt|[Heq|Hgt]]; [|done|].
  - by destruct (nearest_lt_absurd num den m1 m2).
  - by destruct (nearest_lt_absurd num den m2 m1).
Qed.

(** Correct rounding determines the float. *)
Lemma correctly_rounded_unique a b x y :
  correctly_rounded a b x -> correctly_rounded a b y -> x = y.
Proof.
  intros (Hsx & Hbx & Hnx & Hex) (Hsy & Hby & Hny & Hey).
  assert (Ha : 0 < Z.abs a).
  { destruct (Z.eq_dec a 0) as [->|Hne]; [|lia]. exfalso.
    revert Hbx. unfold scale. change (Z.abs 0) with 0.
    destruct (Z.leb_spec 0 (exponent x)) as [He|He]; cbn [fst snd].
    - assert (0 < 2 ^ 52 * (Z.pos b * 2 ^ exponent x)); [|lia].
      apply Z.mul_pos_pos; [done|]. apply Z.mul_pos_pos; [done|].
      by apply Z.pow_pos_nonneg.
    - change (2 ^ 52) with 4503599627370496. lia. }
  destruct x as [mx ex], y as [my ey]. cbn [significand exponent] in *.
  assert (ex = ey) as <-.
  { apply Z.le_antisymm; by apply (binade_unique (Z.abs a) (Z.pos b)). }
  pose proof (scale_pos (Z.abs a) (Z.pos b) ex Ha ltac:(done)) as [_ Hden].
  assert (Z.abs mx = Z.abs my) by (by eapply nearest_unique).
  f_equal. rewrite <- Hsy in Hsx. lia.
Qed.

(** The tenth of an integer is one float. *)
Lemma tenth_of_unique raw x y : tenth_of raw x -> tenth_of raw y -> x = y.
Proof.
  intros (Hx0 & Hx & _) (Hy0 & Hy & _).
  destruct (Z.eq_dec raw 0) as [Hz|Hnz].
  - by rewrite Hx0, Hy0.
  - apply (correctly_rounded_unique raw 10); [by apply Hx|by apply Hy].
Qed.

(** Above 53 bits the quotient is rounded once, from the exact value. *)
Example truediv_rounds_once :
  exists x, truediv 9007199254740995 10 = Ok x /\
            to_prim x = 900719925474099.5%float.
Proof. eexists. split; vm_compute; reflexivity. Qed.

(** A quotient that rounds to [2^1024] overflows. *)
Example truediv_overflows :
  truediv (10 ^ 400) 10 = Raise OverflowError /\
  truediv (10 * 2 ^ 1024 - 1) 10 = Raise OverflowError /\
  exists x, truediv (10 * (2 ^ 1024 - 2 ^ 971)) 10 = Ok x.
Proof.
  split; [|split]; [vm_compute; reflexivity..|].
  eexists. vm_compute. reflexivity.
Qed.

End Division.


(* ===================================================================== *)
(** ** The record of an iteration *)
(* ===================================================================== *)

(** The hypotheses of a first iteration in a constant world. *)
Ltac constant_world_inputs :=
  split; [reflexivity|]; split; [reflexivity|]; vm_compute; reflexivity.

Ltac six_stats_present :=
  split; [discriminate|]; repeat constructor; simpl; tauto.

Ltac row_writable :=
  split; [split; eexists; vm_compute; reflexivity|vm_compute; reflexivity].



(** C5.  In every iteration that is answered, finds the required fields and
    can write its row (the two divisions return and the strings of the row
    can be encoded), the description written is the flavor text of the
    first entry, in list order, whose language is "en" and whose version is
    "red" or "blue", with every newline replaced by a space and every form
    feed removed; when no entry matches, the row is written all the same,
    with the empty string as description. *)
Theorem description_first_match (w : world) (id : Z) (st : run_state)
    (p : pokemon_data) (s : species_data) (evo_dict : gmap string evo_entry)
    (st3 : run_state) :
  receives w st id p s evo_dict st3 ->
  has_required_fields p ->
  writable id p s evo_dict ->
  exists row description,
    process_pokemon w id st = (Ok tt, with_row st3 row) /\
    column row "description" = Some (CStr description) /\
    (forall before entry after,
       sd_flavor_text_entries s = before ++ entry :: after ->
       Forall (fun e => ~ matches e) before ->
       matches entry ->
       description = spec_normalize (flavor_text entry)) /\
    (Forall (fun e => ~ matches e) (sd_flavor_text_entries s) ->
     description = "").
Proof.
  intros Hrec Hreq Hwritable.
  exists (written_row id p s evo_dict),
         (find_description (sd_flavor_text_entries s) "").
  split; [by apply process_pokemon_ok|]. split; [reflexivity|]. split.
  - intros before entry after -> Hbefore Hentry.
    by apply find_description_first.
  - apply find_description_none.
Qed.

Lemma description_first_match_witness :
  receives uniform_world initial_state 1 bulbasaur_data bulbasaur_species
    (parse_evolution_chain bulbasaur_chain)
    (writing_state bulbasaur_data bulbasaur_species bulbasaur_chain) /\
  has_required_fields bulbasaur_data /\
  writable 1 bulbasaur_data bulbasaur_species
    (parse_evolution_chain bulbasaur_chain) /\
  exists row,
    process_pokemon uniform_world 1 initial_state
    = (Ok tt,
       with_row (writing_state bulbasaur_data bulbasaur_species bulbasaur_chain)
         row) /\
    column row "description"
    = Some (CStr "A strange seed was planted on itsback at birth.").
Proof.
  assert (Hrec : receives uniform_world initial_state 1 bulbasaur_data
            bulbasaur_species (parse_evolution_chain bulbasaur_chain)
            (writing_state bulbasaur_data bulbasaur_species bulbasaur_chain))
    by constant_world_inputs.
  assert (Hreq : has_required_fields bulbasaur_data) by six_stats_present.
  assert (Hwritable : writable 1 bulbasaur_data bulbasaur_species
                        (parse_evolution_chain bulbasaur_chain))
    by row_writable.
  split; [exact Hrec|]. split; [exact Hreq|]. split; [exact Hwritable|].
  destruct (description_first_match _ _ _ _ _ _ _ Hrec Hreq Hwritable)
    as (row & description & Hrun & Hcol & Hfirst & _).
  exists row. split; [exact Hrun|]. rewrite Hcol. do 2 f_equal.
  apply (Hfirst
    [FlavorTextEntry "fr" "red" "graine";
     FlavorTextEntry "en" "yellow" "It can go for days"]
    (FlavorTextEntry "en" "red"
       ("A strange seed was" +:+ String newline "planted on its"
        +:+ String formfeed "back at birth."))
    [FlavorTextEntry "en" "blue" "later entry"]).
  - reflexivity.
  - repeat constructor; intros [Hlang Hver]; simpl in *;
      [discriminate Hlang|destruct Hver as [Hver|Hver]; discriminate Hver].
  - split; [reflexivity|left; reflexivity].
Defined.

(** C6.  When the payload answered for [id] lacks one of the six required
    statistics, the iteration raises and the loop stops there: the state is
    the one reached right after the request for the payload, so no row is
    written for [id] or for any later id and no further request is sent.
    With a non-empty list of types the exception is the [KeyError] of the
    first missing key, in the order hp, attack, defense, special-attack,
    special-defense, speed; with an empty list of types the iteration has
    already raised [IndexError]. *)
Theorem missing_stat_aborts (w : world) (id : Z) (st : run_state)
    (p : pokemon_data) (key : string) :
  pokemon_api w (requests st) (pokemon_url id) = Some p ->
  In key required_stats ->
  ~ In key (map fst (pd_stats p)) ->
  exists e,
    process_pokemon w id st
    = (Raise e, with_requests st [(PokemonResource, pokemon_url id)]) /\
    (forall before st0 rest,
       for_each before (process_pokemon w) st0 = (Ok tt, st) ->
       for_each (before ++ id :: rest) (process_pokemon w) st0
       = (Raise e, with_requests st [(PokemonResource, pokemon_url id)])) /\
    (pd_types p <> [] ->
     exists key', e = KeyError key' /\ first_missing_stat p = Some key' /\
                  In key' required_stats /\ ~ In key' (map fst (pd_stats p))) /\
    (pd_types p = [] -> e = IndexError).
Proof.
  intros Hp Hreq Habs.
  destruct (first_missing_stat_exists p key Hreq Habs) as [key' Hkey'].
  assert (Hrun : exists e,
    process_pokemon w id st
    = (Raise e, with_requests st [(PokemonResource, pokemon_url id)]) /\
    (pd_types p <> [] -> e = KeyError key') /\
    (pd_types p = [] -> e = IndexError)).
  { destruct (pd_types p) as [|t1 types] eqn:Ht.
    - exists IndexError. split; [by apply (process_pokemon_no_type w id st p)|done].
    - exists (KeyError key'). split; [|done].
      apply (process_pokemon_missing_stat w id st p); [done| |done].
      by rewrite Ht. }
  destruct Hrun as (e & Hrun & Hkey & Hindex).
  exists e. split; [exact Hrun|]. split; [|split; [|exact Hindex]].
  - intros before st0 rest Hbefore.
    rewrite (for_each_app_ok _ _ _ _ _ Hbefore).
    by apply for_each_raise.
  - intros Ht. exists key'. split; [by apply Hkey|]. split; [done|].
    by apply first_missing_stat_absent.
Qed.

Lemma missing_stat_aborts_witness :
  exists e,
    process_pokemon
      (constant_world no_speed_data bulbasaur_species bulbasaur_chain)
      1 initial_state
    = (Raise e, with_requests initial_state [(PokemonResource, pokemon_url 1)]) /\
    e = KeyError "speed".
Proof.
  destruct (missing_stat_aborts
              (constant_world no_speed_data bulbasaur_species bulbasaur_chain)
              1 initial_state no_speed_data "speed")
    as (e & Hrun & _ & Hkey & _).
  - reflexivity.
  - simpl. tauto.
  - simpl. intros [H|[H|[H|[H|[H|[]]]]]]; discriminate H.
  - exists e. split; [exact Hrun|].
    destruct Hkey as (key' & -> & Hfirst & _); [discriminate|].
    vm_compute in Hfirst. by injection Hfirst as <-.
Defined.

(** C7.  When the name of the species is no key of the mapping resolved for
    its chain, an iteration that is answered, finds the required fields and
    can write its row (the two divisions return and the strings of the row
    can be encoded) does write it: the details default to no predecessor
    and no successors, and the row has the empty string in both columns
    evolution_from and evolution_to. *)
Theorem absent_species_defaults (w : world) (id : Z) (st : run_state)
    (p : pokemon_data) (s : species_data) (evo_dict : gmap string evo_entry)
    (st3 : run_state) :
  receives w st id p s evo_dict st3 ->
  has_required_fields p ->
  writable id p s evo_dict ->
  evo_dict !! pd_name p = None ->
  exists row,
    process_pokemon w id st = (Ok tt, with_row st3 row) /\
    evo_details_of evo_dict (pd_name p) = {| evo_from := None; evo_to := [] |} /\
    column row "evolution_from" = Some (CStr "") /\
    column row "evolution_to" = Some (CStr "").
Proof.
  intros Hrec Hreq Hwritable Habsent. exists (written_row id p s evo_dict).
  split; [by apply process_pokemon_ok|].
  assert (Hdetails : evo_details_of evo_dict (pd_name p)
                     = {| evo_from := None; evo_to := [] |})
    by (unfold evo_details_of; by rewrite Habsent).
  split; [exact Hdetails|].
  unfold written_row, column. simpl. by rewrite Hdetails.
Qed.

Lemma absent_species_defaults_witness :
  receives (constant_world stray_data bulbasaur_species bulbasaur_chain)
    initial_state 1 stray_data bulbasaur_species
    (parse_evolution_chain bulbasaur_chain)
    (writing_state stray_data bulbasaur_species bulbasaur_chain) /\
  has_required_fields stray_data /\
  writable 1 stray_data bulbasaur_species
    (parse_evolution_chain bulbasaur_chain) /\
  parse_evolution_chain bulbasaur_chain !! pd_name stray_data = None /\
  exists row,
    process_pokemon (constant_world stray_data bulbasaur_species bulbasaur_chain)
      1 initial_state
    = (Ok tt,
       with_row (writing_state stray_data bulbasaur_species bulbasaur_chain) row) /\
    column row "evolution_from" = Some (CStr "") /\
    column row "evolution_to" = Some (CStr "").
Proof.
  assert (Hrec : receives
            (constant_world stray_data bulbasaur_species bulbasaur_chain)
            initial_state 1 stray_data bulbasaur_species
            (parse_evolution_chain bulbasaur_chain)
            (writing_state stray_data bulbasaur_species bulbasaur_chain))
    by constant_world_inputs.
  assert (Hreq : has_required_fields stray_data) by six_stats_present.
  assert (Hwritable : writable 1 stray_data bulbasaur_species
                        (parse_evolution_chain bulbasaur_chain))
    by row_writable.
  assert (Habsent : parse_evolution_chain bulbasaur_chain !! pd_name stray_data
                    = None) by (vm_compute; reflexivity).
  split; [exact Hrec|]. split; [exact Hreq|]. split; [exact Hwritable|].
  split; [exact Habsent|].
  destruct (absent_species_defaults _ _ _ _ _ _ _ Hrec Hreq Hwritable Habsent)
    as (row & Hrun & _ & Hfrom & Hto).
  exists row. split; [exact Hrun|]. split; [exact Hfrom|exact Hto].
Defined.

(** C8.  In every iteration that writes its row, with [details] the entry
    looked up for the name of the payload in the mapping resolved for its
    chain: the column evolution_to holds the successor names joined by ", "
    in the order of the entry, which is the empty string when there is no
    successor; the column evolution_from holds the predecessor name, and
    the empty string when there is none. *)
Theorem evolution_columns_rendering (w : world) (id : Z)
    (st st' : run_state) :
  process_pokemon w id st = (Ok tt, st') ->
  exists p s evo_dict st3 row,
    receives w st id p s evo_dict st3 /\
    st' = with_row st3 row /\
    let details := evo_details_of evo_dict (pd_name p) in
    column row "evolution_to" = Some (CStr (String.concat ", " (evo_to details))) /\
    (evo_to details = [] -> column row "evolution_to" = Some (CStr "")) /\
    (forall name, evo_from details = Some name ->
                  column row "evolution_from" = Some (CStr name)) /\
    (evo_from details = None -> column row "evolution_from" = Some (CStr "")).
Proof.
  intros Hrun.
  apply process_pokemon_inv in Hrun
    as (p & s & evo_dict & st3 & Hrec & _ & ->).
  exists p, s, evo_dict, st3, (written_row id p s evo_dict).
  split; [exact Hrec|]. split; [reflexivity|]. intros details.
  assert (Hto : render_to details = String.concat ", " (evo_to details)).
  { unfold render_to, join. by destruct (evo_to details). }
  assert (Hfrom : forall name, evo_from details = Some name ->
                               render_from details = name).
  { intros name Hname. unfold render_from. rewrite Hname.
    destruct (String.eqb name "") eqn:Hempty; [|done].
    by apply String.eqb_eq in Hempty. }
  unfold written_row, column. simpl. fold details.
  split; [by rewrite Hto|]. split; [|split].
  - intros Hnil. by rewrite Hto, Hnil.
  - intros name Hname. by rewrite (Hfrom name Hname).
  - intros Hnone. unfold render_from. by rewrite Hnone.
Qed.

Lemma evolution_columns_rendering_witness :
  let w := constant_world eevee_data bulbasaur_species eevee_chain in
  process_pokemon w 1 initial_state
  = (Ok tt, snd (process_pokemon w 1 initial_state)) /\
  exists st3 row,
    snd (process_pokemon w 1 initial_state) = with_row st3 row /\
    column row "evolution_to" = Some (CStr "vaporeon, jolteon, flareon") /\
    column row "evolution_from" = Some (CStr "").
Proof.
  intros w.
  assert (Hrun : process_pokemon w 1 initial_state
                 = (Ok tt, snd (process_pokemon w 1 initial_state)))
    by (vm_compute; reflexivity).
  split; [exact Hrun|].
  destruct (evolution_columns_rendering _ _ _ _ Hrun)
    as (p & s & evo_dict & st3 & row & Hrec & Hst & Hto & _ & _ & Hfrom).
  destruct Hrec as (Hp & Hs & Hget).
  injection Hp as <-. injection Hs as <-.
  assert (Hdict : evo_dict = parse_evolution_chain eevee_chain).
  { vm_compute in Hget. injection Hget as <- _. vm_compute. reflexivity. }
  rewrite Hdict in Hto, Hfrom.
  exists st3, row. split; [exact Hst|]. split; [exact Hto|].
  apply Hfrom. vm_compute. reflexivity.
Defined.

(** C9.  When the run ends without an exception, the file holds the header
    id, pokedex_number, name, type_primary, type_secondary, hp, attack,
    defense, special_attack, special_defense, speed, height, weight,
    description, evolution_from, evolution_to, image_url, followed by
    exactly 151 rows of 17 cells, the k-th of which (counting from 1) has k
    in the column id. *)
Theorem csv_header_then_rows (w : world) :
  fst (main w initial_state) = Ok tt ->
  exists rows,
    csvfile (snd (main w initial_state))
    = [ CStr "id"; CStr "pokedex_number"; CStr "name"; CStr "type_primary";
        CStr "type_secondary"; CStr "hp"; CStr "attack"; CStr "defense";
        CStr "special_attack"; CStr "special_defense"; CStr "speed";
        CStr "height"; CStr "weight"; CStr "description";
        CStr "evolution_from"; CStr "evolution_to"; CStr "image_url" ]
      :: rows /\
    length rows = 151 /\
    forall k, k < 151 ->
      exists row, rows !! k = Some row /\
                  length row = 17 /\
                  column row "id" = Some (CInt (Z.of_nat k + 1)).
Proof.
  intros Hok.
  destruct (main w initial_state) as [[[]|e] st'] eqn:Hmain; [|discriminate Hok].
  unfold main in Hmain.
  apply bind_inv in Hmain as ([] & st1 & Hheader & Hloop).
  injection Hheader as <-.
  apply for_each_rows in Hloop as (rows & Hcsv & Hrows).
  exists rows. split; [exact Hcsv|].
  pose proof (Forall2_length _ _ _ Hrows) as Hlen.
  rewrite range_length in Hlen. split; [by rewrite <- Hlen|].
  intros k Hk.
  destruct (lookup_lt_is_Some_2 rows k) as [row Hrow]; [by rewrite <- Hlen|].
  exists row. split; [exact Hrow|].
  pose proof (range_lookup 1 152 k Hk) as Hid.
  destruct (Forall2_lookup_lr _ _ _ _ _ _ Hrows Hid Hrow) as (p & s & d & ->).
  split; [reflexivity|]. unfold written_row, column. simpl.
  do 2 f_equal. lia.
Qed.

Lemma csv_header_then_rows_witness :
  fst (main uniform_world initial_state) = Ok tt /\
  exists rows,
    csvfile (snd (main uniform_world initial_state))
    = map CStr fieldnames :: rows /\
    length rows = 151.
Proof.
  assert (Hok : fst (main uniform_world initial_state) = Ok tt)
    by (vm_compute; reflexivity).
  split; [exact Hok|].
  destruct (csv_header_then_rows uniform_world Hok) as (rows & Hcsv & Hlen & _).
  exists rows. split; [exact Hcsv|exact Hlen].
Defined.




(* ===================================================================== *)
(** ** The first three species *)
(* ===================================================================== *)

(** The scenario of the specification: with the chain bulbasaur, ivysaur,
    venusaur, the three rows name their predecessor and successor, and the
    chain is requested once. *)
Example bulbasaur_family_rows :
  let st := snd (for_each [1; 2; 3]%Z (process_pokemon demo_world) initial_state) in
  map (fun row => (column row "name", column row "evolution_from",
                   column row "evolution_to")) (csvfile st)
  = [ (Some (CStr "bulbasaur"), Some (CStr ""), Some (CStr "ivysaur"));
      (Some (CStr "ivysaur"), Some (CStr "bulbasaur"), Some (CStr "venusaur"));
      (Some (CStr "venusaur"), Some (CStr "ivysaur"), Some (CStr "")) ] /\
  chain_fetches "chain/1" (requests st) = 1.
Proof. vm_compute. split; reflexivity. Qed.

(* ===================================================================== *)
(** ** Further properties of the parser *)
(* ===================================================================== *)

Section ParserClosure.

Implicit Types (t c : chain_link) (d : gmap string evo_entry)
  (K : string -> Prop).

Lemma references_within_insert K d k e :
  references_within K d ->
  (forall x, In x (evo_to e) -> K x) ->
  (forall p, evo_from e = Some p -> K p) ->
  references_within K (<[k := e]> d).
Proof.
  intros Hd Hto Hfrom k' e'. destruct (decide (k = k')) as [->|Hne].
  - rewrite lookup_insert_eq. by intros [= <-].
  - rewrite lookup_insert_ne by done. apply Hd.
Qed.

Lemma references_within_append K d k x :
  references_within K d -> K x ->
  references_within K (alter (append_to x) k d).
Proof.
  intros Hd Hx k' e'. destruct (decide (k = k')) as [->|Hne].
  - rewrite lookup_alter_eq. destruct (d !! k') as [e|] eqn:He; [|done].
    intros [= <-]. destruct (Hd k' e He) as [Hto Hfrom]. split; [|exact Hfrom].
    simpl. intros y [Hy|[<-|[]]]%in_app_iff; [by apply Hto|done].
  - rewrite lookup_alter_ne by done. apply Hd.
Qed.

(** The traversal only ever writes names of the tree and [previous]. *)
Lemma recurse_chain_references t :
  forall previous d K,
    references_within K d ->
    (forall x, In x (species_names t) -> K x) ->
    (forall p, previous = Some p -> K p) ->
    references_within K (recurse_chain t previous d).
Proof.
  induction t as [name evos IH] using chain_link_induction.
  intros previous d K Hd Hnames Hprev. rewrite recurse_chain_unfold.
  rewrite species_names_unfold in Hnames.
  assert (Hname : K name) by (apply Hnames; by left).
  assert (Hevos : forall x, In x (flat_map species_names evos) -> K x)
    by (intros x Hx; apply Hnames; by right).
  assert (Hstart : references_within K
            (<[name := {| evo_from := previous; evo_to := [] |}]> d)).
  { apply references_within_insert; [done| |done]. by intros x []. }
  revert Hstart.
  generalize (<[name := {| evo_from := previous; evo_to := [] |}]> d) as d0.
  clear Hd Hnames. induction evos as [|c evos IHevos]; intros d0 Hd0; simpl.
  - exact Hd0.
  - inversion IH as [|? ? IHc IHrest]; subst.
    apply IHevos; [done| |].
    + intros x Hx. apply Hevos. simpl. apply in_app_iff. by right.
    + unfold visit. apply IHc.
      * apply references_within_append; [done|]. apply Hevos. simpl.
        apply in_app_iff. left. apply species_in_names.
      * intros x Hx. apply Hevos. simpl. apply in_app_iff. by left.
      * by intros p [= <-].
Qed.

Lemma parse_evolution_chain_key t k :
  is_Some (parse_evolution_chain t !! k) <-> In k (species_names t).
Proof.
  unfold parse_evolution_chain. rewrite recurse_chain_keys, lookup_empty.
  split; [|auto]. by intros [?|[? [=]]].
Qed.

Lemma subtree_snoc : forall path t i n,
  subtree t (path ++ [i]) = Some n <->
  exists parent, subtree t path = Some parent /\ evolves_to parent !! i = Some n.
Proof.
  induction path as [|j path IH]; intros t i n; simpl.
  - split.
    + intros H. exists t. split; [done|].
      destruct (evolves_to t !! i) as [c|]; [|done]. by injection H as ->.
    + intros (parent & [= <-] & Hi). by rewrite Hi.
  - destruct (evolves_to t !! j) as [c|]; [apply IH|].
    split; [done|]. by intros (? & [=] & _).
Qed.

(** With pairwise distinct names, the entry of every node. *)
Lemma parse_evolution_chain_entry t path n :
  NoDup (species_names t) ->
  subtree t path = Some n ->
  parse_evolution_chain t !! species n
  = Some {| evo_from := predecessor t None path;
            evo_to := map species (evolves_to n) |}.
Proof.
  intros Hnd Hn. apply recurse_chain_entry; [done|].
  apply NoDup_unique_name; [done|]. by eapply subtree_species_in.
Qed.

Lemma list_to_set_size_le (l : list string) :
  size (list_to_set (C := gset string) l) <= length l.
Proof.
  induction l as [|x l IH];
    [rewrite list_to_set_nil, size_empty; simpl; lia|].
  rewrite list_to_set_cons. simpl length.
  destruct (decide (x ∈ (list_to_set l : gset string))) as [Hin|Hout].
  - assert (Heq : {[x]} ∪ list_to_set l = (list_to_set l : gset string)).
    { apply subseteq_union_1_L. by apply singleton_subseteq_l. }
    rewrite Heq. lia.
  - rewrite size_union by set_solver. rewrite size_singleton. lia.
Qed.

Lemma list_to_set_size_NoDup (l : list string) :
  size (list_to_set (C := gset string) l) = length l -> NoDup l.
Proof.
  induction l as [|x l IH]; [intros _; apply NoDup_nil_2|].
  rewrite list_to_set_cons. simpl length.
  pose proof (list_to_set_size_le l) as Hle.
  destruct (decide (x ∈ (list_to_set l : gset string))) as [Hin|Hout].
  - assert (Heq : {[x]} ∪ list_to_set l = (list_to_set l : gset string)).
    { apply subseteq_union_1_L. by apply singleton_subseteq_l. }
    rewrite Heq. lia.
  - rewrite size_union by set_solver. rewrite size_singleton. intros Hsize.
    apply NoDup_cons. split.
    + intros Hx. apply Hout. by apply elem_of_list_to_set.
    + apply IH. lia.
Qed.

Lemma parse_evolution_chain_dom t :
  dom (parse_evolution_chain t) = list_to_set (species_names t).
Proof.
  apply set_eq. intros k.
  rewrite elem_of_dom, parse_evolution_chain_key, elem_of_list_to_set.
  symmetry. apply list_elem_of_In.
Qed.

End ParserClosure.

(** X1.  In the mapping of any tree, every name listed as a successor and
    every name given as a predecessor is itself a key of the mapping. *)
Theorem parse_evolution_chain_closed (t : chain_link) (k : string)
    (e : evo_entry) :
  parse_evolution_chain t !! k = Some e ->
  (forall x, In x (evo_to e) -> is_Some (parse_evolution_chain t !! x)) /\
  (forall p, evo_from e = Some p -> is_Some (parse_evolution_chain t !! p)).
Proof.
  intros Hk.
  assert (H : references_within (fun x => In x (species_names t))
                (parse_evolution_chain t)).
  { apply recurse_chain_references; [|done|done].
    intros k' e'. by rewrite lookup_empty. }
  destruct (H k e Hk) as [Hto Hfrom]. split.
  - intros x Hx. apply parse_evolution_chain_key. by apply Hto.
  - intros p Hp. apply parse_evolution_chain_key. by apply Hfrom.
Qed.

Lemma parse_evolution_chain_closed_witness :
  is_Some (parse_evolution_chain (ChainLink "a" [ChainLink "b" [ChainLink "a" []]])
           !! "a").
Proof.
  apply (proj1 (parse_evolution_chain_closed
                  (ChainLink "a" [ChainLink "b" [ChainLink "a" []]]) "b"
                  {| evo_from := Some "a"; evo_to := ["a"] |} eq_refl)).
  simpl. by left.
Defined.

(** X2.  With pairwise distinct names the two directions of the mapping
    agree: [b] is listed among the successors of [a] exactly when the
    predecessor recorded for [b] is [a]. *)
Theorem parse_evolution_chain_consistent (t : chain_link) (a b : string) :
  NoDup (species_names t) ->
  (exists ea, parse_evolution_chain t !! a = Some ea /\ In b (evo_to ea)) <->
  (exists eb, parse_evolution_chain t !! b = Some eb /\ evo_from eb = Some a).
Proof.
  intros Hnd. split.
  - intros (ea & Ha & Hb).
    assert (Hin : In a (species_names t))
      by (apply parse_evolution_chain_key; by eexists).
    apply species_names_subtree in Hin as (path & n & Hn & <-).
    rewrite (parse_evolution_chain_entry t path n Hnd Hn) in Ha.
    injection Ha as <-. simpl in Hb.
    apply in_map_iff in Hb as (c & <- & Hc).
    apply list_elem_of_In, list_elem_of_lookup_1 in Hc as [i Hi].
    assert (Hchild : subtree t (path ++ [i]) = Some c)
      by (apply subtree_snoc; by exists n).
    eexists. split; [by apply (parse_evolution_chain_entry t _ c Hnd Hchild)|].
    simpl. by apply (predecessor_child path t None i n c).
  - intros (eb & Hb & Ha).
    assert (Hin : In b (species_names t))
      by (apply parse_evolution_chain_key; by eexists).
    apply species_names_subtree in Hin as (path & n & Hn & <-).
    rewrite (parse_evolution_chain_entry t path n Hnd Hn) in Hb.
    injection Hb as <-. simpl in Ha.
    destruct path as [|j path] using rev_ind; [discriminate Ha|].
    clear IHpath.
    pose proof Hn as (parent & Hparent & Hj)%subtree_snoc.
    rewrite (predecessor_child path t None j parent n Hparent Hn) in Ha.
    injection Ha as <-.
    eexists. split; [by apply (parse_evolution_chain_entry t path parent Hnd)|].
    simpl. apply in_map. apply list_elem_of_In.
    by eapply list_elem_of_lookup_2.
Qed.

Lemma parse_evolution_chain_consistent_witness :
  NoDup (species_names eevee_chain) /\
  exists eb, parse_evolution_chain eevee_chain !! "jolteon" = Some eb /\
             evo_from eb = Some "eevee".
Proof.
  assert (Hnd : NoDup (species_names eevee_chain)) by compute_done.
  split; [exact Hnd|].
  apply (proj1 (parse_evolution_chain_consistent eevee_chain "eevee" "jolteon" Hnd)).
  eexists. split; [reflexivity|]. simpl. tauto.
Defined.

(** X3.  The mapping never has more keys than the tree has nodes, and it
    has one key per node exactly when the names of the tree are pairwise
    distinct: a repeated name always costs an entry. *)
Theorem parse_evolution_chain_size (t : chain_link) :
  size (parse_evolution_chain t) <= length (species_names t) /\
  (size (parse_evolution_chain t) = length (species_names t)
   <-> NoDup (species_names t)).
Proof.
  rewrite <- size_dom, parse_evolution_chain_dom. split.
  - apply list_to_set_size_le.
  - split; [apply list_to_set_size_NoDup|apply size_list_to_set].
Qed.

(* ===================================================================== *)
(** ** Further properties of the Python primitives *)
(* ===================================================================== *)

Section Primitives.

Lemma find_app_first {A} (f : A -> bool) (l1 l2 : list A) :
  find f (l1 ++ l2)
  = match find f l1 with Some x => Some x | None => find f l2 end.
Proof.
  induction l1 as [|x l1 IH]; simpl; [done|]. by destruct (f x).
Qed.

Lemma dict_of_pairs_fold_last {V} (pairs : list (string * V)) key :
  forall d : gmap string V,
    fold_left (fun d kv => <[fst kv := snd kv]> d) pairs d !! key
    = match find (fun kv => String.eqb (fst kv) key) (rev pairs) with
      | Some kv => Some (snd kv)
      | None => d !! key
      end.
Proof.
  induction pairs as [|[k v] pairs IH]; intros d; simpl; [done|].
  rewrite IH, find_app_first.
  destruct (find _ (rev pairs)) as [kv|]; [done|]. simpl.
  destruct (String.eqb k key) eqn:Hk.
  - apply String.eqb_eq in Hk as ->. by rewrite lookup_insert_eq.
  - apply String.eqb_neq in Hk. by rewrite lookup_insert_ne.
Qed.

Lemma spec_normalize_chars text :
  ~ In newline (list_ascii_of_string (spec_normalize text)) /\
  ~ In formfeed (list_ascii_of_string (spec_normalize text)).
Proof.
  induction text as [|c text [IHn IHf]]; simpl; [tauto|].
  destruct (Ascii.eqb c newline) eqn:Hn; simpl.
  - split; intros [H|H]; [discriminate H|tauto|discriminate H|tauto].
  - destruct (Ascii.eqb c formfeed) eqn:Hf; simpl; [tauto|].
    apply Ascii.eqb_neq in Hn, Hf. split; intros [H|H]; congruence || tauto.
Qed.

Lemma spec_normalize_length text :
  String.length (spec_normalize text) <= String.length text.
Proof.
  induction text as [|c text IH]; simpl; [done|].
  destruct (Ascii.eqb c newline); simpl; [lia|].
  destruct (Ascii.eqb c formfeed); simpl; lia.
Qed.

Lemma spec_normalize_id text :
  ~ In newline (list_ascii_of_string text) ->
  ~ In formfeed (list_ascii_of_string text) ->
  spec_normalize text = text.
Proof.
  induction text as [|c text IH]; simpl; [done|]. intros Hn Hf.
  destruct (Ascii.eqb c newline) eqn:En.
  { apply Ascii.eqb_eq in En. tauto. }
  destruct (Ascii.eqb c formfeed) eqn:Ef.
  { apply Ascii.eqb_eq in Ef. tauto. }
  f_equal. apply IH; tauto.
Qed.

Lemma append_inj_l (s x y : string) : (s +:+ x = s +:+ y)%string -> x = y.
Proof. induction s as [|c s IH]; simpl; [done|]. intros [= H]. by apply IH. Qed.

Lemma append_inj_slash (x y : string) :
  (x +:+ "/" = y +:+ "/")%string -> x = y.
Proof.
  revert y. induction x as [|c x IH]; intros [|c' y]; simpl; [done| | |].
  - intros [= _ H]. by destruct y.
  - intros [= _ H]. by destruct x.
  - intros [= -> H]. f_equal. by apply IH.
Qed.

Lemma to_int_not_nil z : Z.to_int z <> Decimal.Pos Decimal.Nil /\
                         Z.to_int z <> Decimal.Neg Decimal.Nil.
Proof.
  destruct z as [|p|p]; simpl; split; try discriminate;
    intros [= H]; by apply (Unsigned.to_uint_nonnil p).
Qed.

(** Printing an integer in decimal can be read back. *)
Lemma str_of_int_read z :
  NilZero.int_of_string (str_of_int z) = Some (Z.to_int z).
Proof.
  unfold str_of_int. destruct (to_int_not_nil z). by apply NilZero.isi.
Qed.

End Primitives.

(** X4.  The dictionary built from the list of statistics maps a name to
    the value of the last pair of the list with that name, and to nothing
    when the list has no pair with that name: a repeated statistic is read
    as its last occurrence. *)
Theorem dict_of_pairs_last_wins (pairs : list (string * Z)) (key : string) :
  dict_of_pairs pairs !! key
  = snd <$> find (fun kv => String.eqb (fst kv) key) (rev pairs).
Proof.
  unfold dict_of_pairs. rewrite dict_of_pairs_fold_last.
  destruct (find _ (rev pairs)); [done|]. apply lookup_empty.
Qed.

(** X10.  The normalised flavor text holds neither a newline nor a form
    feed and is never longer than the text; a text without these two
    characters is left as it is, so normalising twice changes nothing
    more. *)
Theorem normalize_clean (text : string) :
  ~ In newline (list_ascii_of_string (normalize text)) /\
  ~ In formfeed (list_ascii_of_string (normalize text)) /\
  String.length (normalize text) <= String.length text /\
  (~ In newline (list_ascii_of_string text) ->
   ~ In formfeed (list_ascii_of_string text) ->
   normalize text = text) /\
  normalize (normalize text) = normalize text.
Proof.
  rewrite !normalize_spec.
  destruct (spec_normalize_chars text) as [Hn Hf].
  split; [exact Hn|]. split; [exact Hf|].
  split; [apply spec_normalize_length|].
  split; [apply spec_normalize_id|]. by apply spec_normalize_id.
Qed.

(** X11.  The URL requested for an id ends in the decimal writing of the
    id, which can be read back: two different ids never request the same
    URL. *)
Theorem pokemon_url_injective (a b : Z) :
  a <> b -> pokemon_url a <> pokemon_url b.
Proof.
  intros Hne Hurl. apply Hne. unfold pokemon_url in Hurl.
  apply append_inj_l, append_inj_slash in Hurl.
  apply DecimalZ.to_int_inj.
  pose proof (str_of_int_read a) as Ha. rewrite Hurl, str_of_int_read in Ha.
  by injection Ha.
Qed.

Lemma pokemon_url_injective_witness :
  pokemon_url 25 = "https://pokeapi.co/api/v2/pokemon/25/" /\
  pokemon_url 25 <> pokemon_url 52.
Proof.
  split; [reflexivity|]. apply pokemon_url_injective. discriminate.
Defined.

(** X14.  [int / 10] returns for every integer of magnitude below
    [2^1024]; what it returns is the tenth of the integer as a float, and
    the only float that is; it raises nothing but [OverflowError], and only
    for integers of magnitude [2^1024] or more. *)
Theorem truediv_ten_spec (raw : Z) :
  ((Z.abs raw < 2 ^ 1024)%Z -> exists x, truediv raw 10 = Ok x) /\
  (forall x, truediv raw 10 = Ok x ->
     tenth_of raw x /\ forall y, tenth_of raw y -> y = x) /\
  (forall e, truediv raw 10 = Raise e ->
     e = OverflowError /\ (2 ^ 1024 <= Z.abs raw)%Z).
Proof.
  split; [apply truediv_ten_no_overflow|]. split.
  - intros x Hx. pose proof (truediv_tenth_of raw x Hx) as Htenth.
    split; [exact Htenth|]. intros y Hy. by apply (tenth_of_unique raw).
  - intros e He. split; [by eapply truediv_raise_inv|].
    apply Z.nlt_ge. intros Hsmall.
    destruct (truediv_ten_no_overflow raw Hsmall) as [x Hx].
    by rewrite Hx in He.
Qed.

(* ===================================================================== *)
(** ** How an iteration and the run end *)
(* ===================================================================== *)

Section Outcomes.

Context (w : world).

Lemma first_missing_stat_none p :
  first_missing_stat p = None ->
  Forall (fun key => In key (map fst (pd_stats p))) required_stats.
Proof.
  intros Hnone. apply List.Forall_forall. intros key Hkey.
  pose proof (find_none _ _ Hnone key Hkey) as Hb. simpl in Hb.
  by apply negb_false_iff, existsb_eqb_In in Hb.
Qed.

(** With a type and the six statistics, the iteration comes to the two
    divisions, and after them to the request for the species. *)
Lemma process_pokemon_after_stats id st p :
  pokemon_api w (requests st) (pokemon_url id) = Some p ->
  has_required_fields p ->
  process_pokemon w id st
  = match truediv (pd_height p) 10, truediv (pd_weight p) 10 with
    | Ok _, Ok _ =>
        bind (fetch_data SpeciesResource (species_api w) (pd_species_url p))
          (fun s =>
             bind (get_or_fetch w (sd_evolution_chain_url s))
               (fun evo_dict st4 =>
                  if forallb cell_encodable (written_row id p s evo_dict)
                  then (Ok tt, with_row st4 (written_row id p s evo_dict))
                  else (Raise UnicodeEncodeError, st4)))
          (with_requests st [(PokemonResource, pokemon_url id)])
    | Raise e, _ | Ok _, Raise e =>
        (Raise e, with_requests st [(PokemonResource, pokemon_url id)])
    end.
Proof.
  intros Hp [Htypes Hstats].
  unfold required_stats in Hstats.
  repeat match goal with
         | H : Forall _ (_ :: _) |- _ =>
             apply Forall_cons in H as [?%stat_lookup H]
         end.
  repeat match goal with H : exists _, _ |- _ => destruct H as (? & ? & ?) end.
  destruct (truediv (pd_height p) 10) as [h|e] eqn:Hh;
    [destruct (truediv (pd_weight p) 10) as [wt|e] eqn:Hwt|];
    unfold process_pokemon;
    rewrite (bind_ok _ _ _ _ _ (fetch_data_ok _ _ _ _ _ Hp));
    (destruct (pd_types p) as [|t1 types] eqn:Ht; [done|]);
    unfold getitem at 1; simpl (_ !! 0); rewrite (bind_ok _ _ _ t1 _ eq_refl);
    rewrite (bind_ok _ _ _ _ _ (type_secondary_ok _ _));
    repeat (erewrite bind_ok; [|by apply dict_getitem_ok]).
  - rewrite (bind_ok _ _ _ _ _ (eval_ok _ _ _ Hh)).
    rewrite (bind_ok _ _ _ _ _ (eval_ok _ _ _ Hwt)).
    unfold bind.
    destruct (fetch_data _ _ _ _) as [[s|e] st2]; [|done].
    destruct (get_or_fetch _ _ _) as [[evo_dict|e] st3]; [|done].
    rewrite writerow_record. cbv zeta.
    match goal with
    | |- (if forallb cell_encodable ?row then _ else _) = _ =>
        assert (Hrow : written_row id p s evo_dict = row)
    end.
    { unfold written_row.
      rewrite (tenth_cell_ok _ _ Hh), (tenth_cell_ok _ _ Hwt), Ht.
      by repeat match goal with
                | H : stat_cell _ _ = _ |- _ => rewrite H; clear H
                end. }
    by rewrite <- Hrow.
  - rewrite (bind_ok _ _ _ _ _ (eval_ok _ _ _ Hh)).
    by rewrite (bind_raise _ _ _ _ _ (eval_raise _ _ _ Hwt)).
  - by rewrite (bind_raise _ _ _ _ _ (eval_raise _ _ _ Hh)).
Qed.

Lemma get_or_fetch_raise_inv url st e st' :
  get_or_fetch w url st = (Raise e, st') ->
  evo_cache st !! url = None /\
  chain_api w (requests st) url = None /\
  e = HTTPError url /\
  st' = with_requests st [(ChainResource, url)].
Proof.
  destruct (evo_cache st !! url) as [d|] eqn:Hlookup.
  - by rewrite (get_or_fetch_hit _ _ _ _ Hlookup).
  - rewrite (get_or_fetch_miss _ _ _ Hlookup).
    destruct (chain_api w (requests st) url); [done|]. by intros [= <- <-].
Qed.

Lemma get_or_fetch_ok_inv url st evo_dict st' :
  get_or_fetch w url st = (Ok evo_dict, st') ->
  (evo_cache st !! url = Some evo_dict /\ st' = st) \/
  (evo_cache st !! url = None /\
   exists chain,
     chain_api w (requests st) url = Some chain /\
     evo_dict = parse_evolution_chain chain /\
     st' = {| evo_cache := <[url := evo_dict]> (evo_cache st);
              requests := requests st ++ [(ChainResource, url)];
              csvfile := csvfile st |}).
Proof.
  destruct (evo_cache st !! url) as [d|] eqn:Hlookup.
  - rewrite (get_or_fetch_hit _ _ _ _ Hlookup). intros [= <- <-]. by left.
  - rewrite (get_or_fetch_miss _ _ _ Hlookup).
    destruct (chain_api w (requests st) url) as [chain|]; [|done].
    intros [= <- <-]. right. split; [done|]. by exists chain.
Qed.

(** The ways an iteration raises: before the request for the species, at
    that request, at the request for the chain, or at the writer. *)
Lemma process_pokemon_raise_inv id st e st' :
  process_pokemon w id st = (Raise e, st') ->
  ((e = HTTPError (pokemon_url id) \/ e = IndexError \/
    (exists key, In key required_stats /\ e = KeyError key) \/
    e = OverflowError) /\
   st' = with_requests st [(PokemonResource, pokemon_url id)])
  \/
  (exists p,
     pokemon_api w (requests st) (pokemon_url id) = Some p /\
     e = HTTPError (pd_species_url p) /\
     st' = with_requests st [(PokemonResource, pokemon_url id);
                             (SpeciesResource, pd_species_url p)])
  \/
  (exists p s,
     pokemon_api w (requests st) (pokemon_url id) = Some p /\
     e = HTTPError (sd_evolution_chain_url s) /\
     evo_cache st !! sd_evolution_chain_url s = None /\
     st' = with_requests st
             [(PokemonResource, pokemon_url id);
              (SpeciesResource, pd_species_url p);
              (ChainResource, sd_evolution_chain_url s)])
  \/
  (exists p s evo_dict,
     receives w st id p s evo_dict st' /\
     has_required_fields p /\
     no_overflow p /\
     forallb cell_encodable (written_row id p s evo_dict) = false /\
     e = UnicodeEncodeError).
Proof.
  destruct (pokemon_api w (requests st) (pokemon_url id)) as [p|] eqn:Hp.
  2:{ unfold process_pokemon.
      rewrite (bind_raise _ _ _ _ _ (fetch_data_raise _ _ _ _ Hp)).
      intros [= <- <-]. left. split; [by left|done]. }
  destruct (pd_types p) as [|t1 types] eqn:Ht.
  { rewrite (process_pokemon_no_type w id st p Hp Ht).
    intros [= <- <-]. left. split; [right; by left|done]. }
  destruct (first_missing_stat p) as [key|] eqn:Hkey.
  { rewrite (process_pokemon_missing_stat w id st p key Hp); [|by rewrite Ht|done].
    intros [= <- <-]. left. split; [|done]. right. right. left. exists key.
    split; [|done]. by apply (first_missing_stat_absent p). }
  assert (Hreq : has_required_fields p).
  { split; [by rewrite Ht|by apply first_missing_stat_none]. }
  rewrite (process_pokemon_after_stats id st p Hp Hreq).
  destruct (truediv (pd_height p) 10) as [h|e1] eqn:Hh.
  2:{ intros [= <- <-]. left. split; [|done]. do 3 right.
      by eapply truediv_raise_inv. }
  destruct (truediv (pd_weight p) 10) as [wt|e1] eqn:Hwt.
  2:{ intros [= <- <-]. left. split; [|done]. do 3 right.
      by eapply truediv_raise_inv. }
  intros Hrun. right.
  destruct (species_api w (requests st ++ [(PokemonResource, pokemon_url id)])
              (pd_species_url p)) as [s|] eqn:Hs.
  - rewrite (bind_ok _ _ _ _ _
               (fetch_data_ok SpeciesResource (species_api w) (pd_species_url p)
                  (with_requests st [(PokemonResource, pokemon_url id)]) s Hs))
      in Hrun.
    rewrite with_requests_app in Hrun. simpl app in Hrun.
    unfold bind in Hrun.
    destruct (get_or_fetch _ _ _) as [[evo_dict|e'] st3] eqn:Hget.
    + destruct (forallb _ _) eqn:Hencodable; [done|].
      injection Hrun as <- <-. right. right. exists p, s, evo_dict.
      split; [by repeat split|]. split; [exact Hreq|].
      split; [split; by eexists|]. by split.
    + injection Hrun as <- <-.
      apply get_or_fetch_raise_inv in Hget as (Hmiss & _ & -> & ->).
      right. left. exists p, s. split; [done|]. split; [done|].
      split; [exact Hmiss|]. by rewrite with_requests_app.
  - rewrite (bind_raise _ _ _ _ _
               (fetch_data_raise SpeciesResource (species_api w)
                  (pd_species_url p)
                  (with_requests st [(PokemonResource, pokemon_url id)]) Hs))
      in Hrun.
    injection Hrun as <- <-. left. exists p. split; [done|]. split; [done|].
    by rewrite with_requests_app.
Qed.

(** A loop that raises did so in one iteration, after the ones before it
    had ended. *)
Lemma for_each_raise_inv {A} (body : A -> M unit) ids : forall st e st',
  for_each ids body st = (Raise e, st') ->
  exists before x rest st1,
    ids = before ++ x :: rest /\
    for_each before body st = (Ok tt, st1) /\
    body x st1 = (Raise e, st').
Proof.
  induction ids as [|x ids IH]; intros st e st'; simpl; [done|].
  unfold bind. destruct (body x st) as [[[]|e1] st1] eqn:Hx.
  - intros (before & y & rest & st2 & -> & Hbefore & Hy)%IH.
    exists (x :: before), y, rest, st2. split; [done|]. split; [|done].
    simpl. by rewrite (bind_ok _ _ _ _ _ Hx).
  - intros [= <- <-]. by exists [], x, ids, st.
Qed.

Lemma written_row_id id p s evo_dict :
  column (written_row id p s evo_dict) "id" = Some (CInt id) /\
  length (written_row id p s evo_dict) = 17.
Proof. by split. Qed.

(** The rows of the first ids of [range 1 152]. *)
Lemma rows_of_range before x rest rows :
  range 1 152 = before ++ x :: rest ->
  Forall2 (fun id row => exists p s evo_dict, row = written_row id p s evo_dict)
    before rows ->
  length rows < 151 /\
  x = (Z.of_nat (length rows) + 1)%Z /\
  forall j row, rows !! j = Some row ->
    column row "id" = Some (CInt (Z.of_nat j + 1)) /\ length row = 17.
Proof.
  intros Hrange Hrows.
  pose proof (Forall2_length _ _ _ Hrows) as Hlen.
  pose proof (f_equal length Hrange) as Hlength.
  rewrite range_length, length_app in Hlength. simpl in Hlength.
  assert (Hlt : length rows < 151) by lia.
  split; [exact Hlt|]. split.
  - pose proof (range_lookup 1 152 (length before) ltac:(simpl; lia)) as Hx.
    rewrite Hrange, list_lookup_middle in Hx by done.
    injection Hx as ->. lia.
  - intros j row Hrow.
    destruct (Forall2_lookup_r _ _ _ _ _ Hrows Hrow)
      as (id & Hid & p & s & d & ->).
    pose proof (lookup_lt_Some _ _ _ Hid) as Hj.
    pose proof (range_lookup 1 152 j ltac:(simpl; lia)) as Hx.
    rewrite Hrange, lookup_app_l, Hid in Hx by done.
    injection Hx as ->. split; [|done].
    unfold written_row, column. simpl. do 2 f_equal. lia.
Qed.

(** What an iteration that ends has added to the log and to the cache. *)
Lemma receives_effects st id p s evo_dict st3 :
  receives w st id p s evo_dict st3 ->
  let url := sd_evolution_chain_url s in
  let sent := [(PokemonResource, pokemon_url id);
               (SpeciesResource, pd_species_url p)] in
  csvfile st3 = csvfile st /\
  evo_cache st3 !! url = Some evo_dict /\
  ((evo_cache st !! url = Some evo_dict /\
    evo_cache st3 = evo_cache st /\
    requests st3 = requests st ++ sent)
   \/
   (evo_cache st !! url = None /\
    evo_cache st3 = <[url := evo_dict]> (evo_cache st) /\
    requests st3 = requests st ++ sent ++ [(ChainResource, url)])).
Proof.
  intros Hrec url sent. split; [by eapply receives_csvfile|].
  destruct Hrec as (_ & _ & Hget).
  apply get_or_fetch_ok_inv in Hget as [[Hhit ->]|(Hmiss & chain & _ & _ & ->)];
    simpl in *.
  - split; [exact Hhit|]. by left.
  - split; [by rewrite lookup_insert_eq|]. right.
    split; [exact Hmiss|]. split; [done|]. by rewrite <- app_assoc.
Qed.

Lemma for_each_request_count ids : forall st st',
  for_each ids (process_pokemon w) st = (Ok tt, st') ->
  length (requests st') + size (evo_cache st)
  = length (requests st) + 2 * length ids + size (evo_cache st') /\
  size (evo_cache st') <= size (evo_cache st) + length ids.
Proof.
  induction ids as [|id ids IH]; intros st st'; simpl.
  - intros [= <-]. lia.
  - intros ([] & st1 & Hid & Hrest)%bind_inv.
    apply process_pokemon_inv in Hid as (p & s & evo_dict & st3 & Hrec & _ & ->).
    apply IH in Hrest as [Hcount Hsize]. simpl in Hcount, Hsize.
    destruct (receives_effects _ _ _ _ _ _ Hrec)
      as (_ & _ & [(_ & Hcache & Hreqs)|(Hmiss & Hcache & Hreqs)]);
      rewrite Hcache, Hreqs in *; rewrite !length_app in Hcount; simpl in *.
    + lia.
    + rewrite map_size_insert_None in * by done. lia.
Qed.

Lemma cache_of_answers_requests st r :
  cache_of_answers w st -> cache_of_answers w (with_requests st [r]).
Proof.
  intros Hst url evo_dict Hurl.
  destruct (Hst url evo_dict Hurl) as (history & later & chain & Hreq & Hans).
  exists history, (later ++ [r]), chain. split; [|exact Hans].
  simpl. rewrite Hreq. by rewrite <- app_assoc.
Qed.

Lemma cache_of_answers_get_or_fetch url :
  hoare (cache_of_answers w) (get_or_fetch w url)
    (fun _ => cache_of_answers w) (fun _ => cache_of_answers w).
Proof.
  intros st Hst.
  destruct (get_or_fetch w url st) as [[evo_dict|e] st'] eqn:Hget.
  - apply get_or_fetch_ok_inv in Hget
      as [[_ ->]|(_ & chain & Hchain & -> & ->)]; [done|].
    intros url' d. simpl. destruct (decide (url = url')) as [<-|Hne].
    + rewrite lookup_insert_eq. intros [= <-].
      by exists (requests st), [], chain.
    + rewrite lookup_insert_ne by done. intros Hurl'.
      destruct (Hst url' d Hurl') as (history & later & c & Hreq & Hans).
      exists history, (later ++ [(ChainResource, url)]), c.
      split; [|exact Hans]. rewrite Hreq. by rewrite <- app_assoc.
  - apply get_or_fetch_raise_inv in Hget as (_ & _ & _ & ->).
    by apply cache_of_answers_requests.
Qed.

Lemma cache_of_answers_main :
  hoare (cache_of_answers w) (main w)
    (fun _ => cache_of_answers w) (fun _ => cache_of_answers w).
Proof.
  apply hoare_main.
  - done.
  - intros st st' Hc Hr Hst url evo_dict. rewrite Hc, Hr. apply Hst.
  - intros st r _. apply cache_of_answers_requests.
  - intros st r _. apply cache_of_answers_requests.
  - apply cache_of_answers_get_or_fetch.
Qed.

Lemma last_two {A} (l : list A) a b : last (l ++ [a; b]) = Some b.
Proof.
  change (l ++ [a; b]) with (l ++ [a] ++ [b]).
  by rewrite app_assoc, last_snoc.
Qed.

Lemma last_three {A} (l : list A) a b c : last (l ++ [a; b; c]) = Some c.
Proof.
  change (l ++ [a; b; c]) with (l ++ [a; b] ++ [c]).
  by rewrite app_assoc, last_snoc.
Qed.

(** What an iteration that raises has done: no row, one to three requests,
    and a store into the cache only when the writer raised. *)
Lemma process_pokemon_raise_effects id st e st' :
  process_pokemon w id st = (Raise e, st') ->
  csvfile st' = csvfile st /\
  (exists new,
     requests st' = requests st ++ new /\
     1 <= length new <= 3 /\
     head new = Some (PokemonResource, pokemon_url id) /\
     (forall url, e = HTTPError url -> exists kind, last new = Some (kind, url))) /\
  (evo_cache st' = evo_cache st \/
   e = UnicodeEncodeError /\
   exists url evo_dict,
     evo_cache st !! url = None /\
     evo_cache st' = <[url := evo_dict]> (evo_cache st)).
Proof.
  intros Hrun.
  apply process_pokemon_raise_inv in Hrun
    as [[He ->]|[(p & _ & -> & ->)|[(p & s & _ & -> & _ & ->)
                                   |(p & s & evo_dict & Hrec & _ & _ & _ & ->)]]].
  - split; [done|]. split; [|by left].
    exists [(PokemonResource, pokemon_url id)].
    split; [done|]. split; [simpl; lia|]. split; [done|].
    intros url ->.
    destruct He as [[= <-]|[[=]|[(? & _ & [=])|[=]]]]. by eexists.
  - split; [done|]. split; [|by left].
    eexists. split; [done|]. split; [simpl; lia|]. split; [done|].
    intros url [= <-]. by eexists.
  - split; [done|]. split; [|by left].
    eexists. split; [done|]. split; [simpl; lia|]. split; [done|].
    intros url [= <-]. by eexists.
  - destruct (receives_effects _ _ _ _ _ _ Hrec) as (Hcsv & _ & Heffects).
    split; [exact Hcsv|].
    destruct Heffects as [(_ & Hcache & Hreqs)|(Hmiss & Hcache & Hreqs)].
    + split; [|by left].
      eexists. split; [exact Hreqs|]. split; [simpl; lia|]. by split.
    + split.
      * eexists. split; [exact Hreqs|]. split; [simpl; lia|]. by split.
      * right. split; [done|]. by eexists _, _.
Qed.

End Outcomes.

(** X5.  When the run raises, the file holds the header followed by the
    complete rows of the ids 1 to k for some k below 151, in order; the
    iteration that raised is the one of id k+1, which had requested its
    payload and wrote nothing; and when the exception is the failure of a
    request, that request is the last one sent. *)
Theorem main_raise_leaves_prefix (w : world) (e : error) (st' : run_state) :
  main w initial_state = (Raise e, st') ->
  exists rows,
    csvfile st' = header_row :: rows /\
    length rows < 151 /\
    (forall j row, rows !! j = Some row ->
       column row "id" = Some (CInt (Z.of_nat j + 1)) /\ length row = 17) /\
    In (PokemonResource, pokemon_url (Z.of_nat (length rows) + 1))
       (requests st') /\
    (forall url, e = HTTPError url ->
       exists kind, last (requests st') = Some (kind, url)).
Proof.
  unfold main. intros Hmain.
  rewrite (bind_ok _ _ initial_state tt (with_row initial_state header_row) eq_refl)
    in Hmain.
  apply for_each_raise_inv in Hmain
    as (before & x & rest & st1 & Hrange & Hbefore & Hx).
  apply for_each_rows in Hbefore as (rows & Hcsv & Hrows).
  destruct (rows_of_range before x rest rows Hrange Hrows) as (Hlt & -> & Hids).
  exists rows.
  apply process_pokemon_raise_effects in Hx
    as (Hfile & (new & Hreqs & Hlen & Hhead & Hlast) & _).
  split; [by rewrite Hfile|]. split; [exact Hlt|]. split; [exact Hids|].
  destruct new as [|r new]; [simpl in Hlen; lia|].
  injection Hhead as ->. split.
  - rewrite Hreqs. apply in_app_iff. right. by left.
  - intros url Hurl. destruct (Hlast url Hurl) as [kind Hkind].
    exists kind. by rewrite Hreqs, last_app, Hkind.
Qed.

Lemma main_raise_leaves_prefix_witness :
  main demo_world initial_state
  = (Raise (HTTPError (pokemon_url 4)), snd (main demo_world initial_state)) /\
  exists rows,
    csvfile (snd (main demo_world initial_state)) = header_row :: rows /\
    length rows = 3.
Proof.
  assert (Hrun : main demo_world initial_state
                 = (Raise (HTTPError (pokemon_url 4)),
                    snd (main demo_world initial_state)))
    by (vm_compute; reflexivity).
  split; [exact Hrun|].
  destruct (main_raise_leaves_prefix _ _ _ Hrun) as (rows & Hcsv & _).
  exists rows. split; [exact Hcsv|].
  apply (f_equal (@length _)) in Hcsv. vm_compute in Hcsv. by injection Hcsv.
Defined.

(** X6.  An iteration that ends was answered a payload and a species,
    sent the request for the payload, then the one for the species, then
    the one for the chain only when the chain URL was not in the cache,
    and appended exactly one row, which carries the id and the name of the
    payload; afterwards the chain URL is in the cache. *)
Theorem process_pokemon_ok_effects (w : world) (id : Z) (st st' : run_state) :
  process_pokemon w id st = (Ok tt, st') ->
  exists p s row,
    pokemon_api w (requests st) (pokemon_url id) = Some p /\
    species_api w (requests st ++ [(PokemonResource, pokemon_url id)])
      (pd_species_url p) = Some s /\
    csvfile st' = csvfile st ++ [row] /\
    column row "id" = Some (CInt id) /\
    column row "name" = Some (CStr (pd_name p)) /\
    is_Some (evo_cache st' !! sd_evolution_chain_url s) /\
    requests st'
    = requests st
      ++ [(PokemonResource, pokemon_url id); (SpeciesResource, pd_species_url p)]
      ++ match evo_cache st !! sd_evolution_chain_url s with
         | Some _ => []
         | None => [(ChainResource, sd_evolution_chain_url s)]
         end.
Proof.
  intros Hrun.
  apply process_pokemon_inv in Hrun as (p & s & evo_dict & st3 & Hrec & _ & ->).
  exists p, s, (written_row id p s evo_dict).
  destruct (receives_effects w _ _ _ _ _ _ Hrec) as (Hcsv & Hcached & Heffects).
  destruct Hrec as (Hp & Hs & _).
  split; [exact Hp|]. split; [exact Hs|]. simpl.
  split; [by rewrite Hcsv|]. split; [done|]. split; [done|].
  split; [by eexists|].
  destruct Heffects as [(-> & _ & ->)|(-> & _ & ->)]; done.
Qed.

Lemma process_pokemon_ok_effects_witness :
  exists p s row,
    csvfile (snd (process_pokemon uniform_world 1 initial_state)) = [row] /\
    column row "name" = Some (CStr (pd_name p)) /\
    requests (snd (process_pokemon uniform_world 1 initial_state))
    = [(PokemonResource, pokemon_url 1); (SpeciesResource, pd_species_url p);
       (ChainResource, sd_evolution_chain_url s)].
Proof.
  destruct (process_pokemon_ok_effects uniform_world 1 initial_state
              (snd (process_pokemon uniform_world 1 initial_state)))
    as (p & s & row & _ & _ & Hcsv & _ & Hname & _ & Hreqs).
  - vm_compute. reflexivity.
  - exists p, s, row. split; [exact Hcsv|]. split; [exact Hname|exact Hreqs].
Defined.

(** X7.  An iteration that raises writes no row.  It has sent between one
    and three requests, the first of which is the one for the payload of
    its id, and when the exception is the failure of a request, that
    request is the last one sent.  It leaves the cache as it was, unless
    the exception is the [UnicodeEncodeError] of the writer, which comes
    after the store of line 88: then the cache may have gained the mapping
    of one chain URL that it did not hold. *)
Theorem process_pokemon_raise_writes_nothing (w : world) (id : Z)
    (st : run_state) (e : error) (st' : run_state) :
  process_pokemon w id st = (Raise e, st') ->
  csvfile st' = csvfile st /\
  (exists new,
     requests st' = requests st ++ new /\
     1 <= length new <= 3 /\
     head new = Some (PokemonResource, pokemon_url id) /\
     (forall url, e = HTTPError url -> exists kind, last new = Some (kind, url))) /\
  (evo_cache st' = evo_cache st \/
   e = UnicodeEncodeError /\
   exists url evo_dict,
     evo_cache st !! url = None /\
     evo_cache st' = <[url := evo_dict]> (evo_cache st)).
Proof. apply process_pokemon_raise_effects. Qed.

Lemma process_pokemon_raise_writes_nothing_witness :
  let w := constant_world surrogate_data bulbasaur_species bulbasaur_chain in
  process_pokemon w 7 initial_state
  = (Raise UnicodeEncodeError, snd (process_pokemon w 7 initial_state)) /\
  csvfile (snd (process_pokemon w 7 initial_state)) = [] /\
  evo_cache (snd (process_pokemon w 7 initial_state)) !! "chain/1"
  = Some (parse_evolution_chain bulbasaur_chain).
Proof.
  intros w.
  assert (Hrun : process_pokemon w 7 initial_state
                 = (Raise UnicodeEncodeError,
                    snd (process_pokemon w 7 initial_state)))
    by (vm_compute; reflexivity).
  split; [exact Hrun|].
  destruct (process_pokemon_raise_writes_nothing _ _ _ _ _ Hrun)
    as (Hcsv & _ & _).
  split; [exact Hcsv|]. vm_compute. reflexivity.
Defined.

(** X15.  When the payload has a type and the six statistics but one of
    its two divisions by ten overflows, the iteration raises
    [OverflowError] right after the request for the payload: the species
    is not requested and no row is written. *)
Theorem overflow_aborts (w : world) (id : Z) (st : run_state)
    (p : pokemon_data) :
  pokemon_api w (requests st) (pokemon_url id) = Some p ->
  has_required_fields p ->
  ~ no_overflow p ->
  process_pokemon w id st
  = (Raise OverflowError,
     with_requests st [(PokemonResource, pokemon_url id)]).
Proof.
  intros Hp Hreq Hoverflow.
  rewrite (process_pokemon_after_stats w id st p Hp Hreq).
  destruct (truediv (pd_height p) 10) as [h|e] eqn:Hh.
  - destruct (truediv (pd_weight p) 10) as [wt|e] eqn:Hwt.
    + destruct Hoverflow. split; by eexists.
    + by rewrite (truediv_raise_inv _ _ _ Hwt).
  - by rewrite (truediv_raise_inv _ _ _ Hh).
Qed.

Lemma overflow_aborts_witness :
  let w := constant_world giant_data bulbasaur_species bulbasaur_chain in
  process_pokemon w 1 initial_state
  = (Raise OverflowError,
     with_requests initial_state [(PokemonResource, pokemon_url 1)]).
Proof.
  intros w. apply (overflow_aborts w 1 initial_state giant_data).
  - reflexivity.
  - six_stats_present.
  - intros [[x Hx] _]. vm_compute in Hx. discriminate Hx.
Defined.

(** X8.  A run that ends has sent two requests per species and one more
    per chain URL in the cache: 302 plus the number of cached chains, which
    is at most 151. *)
Theorem main_request_count (w : world) (st' : run_state) :
  main w initial_state = (Ok tt, st') ->
  length (requests st') = 302 + size (evo_cache st') /\
  size (evo_cache st') <= 151.
Proof.
  unfold main. intros Hmain.
  rewrite (bind_ok _ _ initial_state tt (with_row initial_state header_row) eq_refl)
    in Hmain.
  apply for_each_request_count in Hmain as [Hcount Hsize].
  rewrite range_length in Hcount, Hsize. simpl in Hcount, Hsize.
  rewrite map_size_empty in Hcount, Hsize.
  change (Z.to_nat (152 - 1)) with 151 in *. lia.
Qed.

Lemma main_request_count_witness :
  main uniform_world initial_state
  = (Ok tt, snd (main uniform_world initial_state)) /\
  length (requests (snd (main uniform_world initial_state))) = 303.
Proof.
  assert (Hrun : main uniform_world initial_state
                 = (Ok tt, snd (main uniform_world initial_state)))
    by (vm_compute; reflexivity).
  split; [exact Hrun|].
  destruct (main_request_count _ _ Hrun) as [Hcount _].
  rewrite Hcount. vm_compute. reflexivity.
Defined.

(** X9.  Whether the run ends or raises, every mapping in the cache is the
    parse of the chain that the API answered at the moment the request for
    its URL was sent, and that request is in the log. *)
Theorem cache_holds_parsed_answers (w : world) (url : string)
    (evo_dict : gmap string evo_entry) :
  evo_cache (snd (main w initial_state)) !! url = Some evo_dict ->
  exists history later chain,
    requests (snd (main w initial_state))
    = history ++ (ChainResource, url) :: later /\
    chain_api w history url = Some chain /\
    evo_dict = parse_evolution_chain chain.
Proof.
  assert (Hinit : cache_of_answers w initial_state)
    by (intros url' d; simpl; by rewrite lookup_empty).
  pose proof (cache_of_answers_main w initial_state Hinit) as H.
  destruct (main w initial_state) as [[[]|e] st']; simpl; apply H.
Qed.

Lemma cache_holds_parsed_answers_witness :
  evo_cache (snd (main demo_world initial_state)) !! "chain/1"
  = Some (parse_evolution_chain bulbasaur_chain) /\
  exists history later,
    requests (snd (main demo_world initial_state))
    = history ++ (ChainResource, "chain/1") :: later.
Proof.
  assert (Hcache : evo_cache (snd (main demo_world initial_state)) !! "chain/1"
                   = Some (parse_evolution_chain bulbasaur_chain))
    by (vm_compute; reflexivity).
  split; [exact Hcache|].
  destruct (cache_holds_parsed_answers _ _ _ Hcache)
    as (history & later & _ & Hreqs & _).
  by exists history, later.
Defined.

(* ===================================================================== *)
(** ** From the chain to the row, and runs that end *)
(* ===================================================================== *)

Section EndToEnd.

Context (w : world).

Lemma render_from_default e : render_from e = default "" (evo_from e).
Proof.
  unfold render_from. destruct (evo_from e) as [name|]; [|done]. simpl.
  destruct (String.eqb name "") eqn:Hempty; [|done].
  by apply String.eqb_eq in Hempty.
Qed.

Lemma render_to_concat e : render_to e = String.concat ", " (evo_to e).
Proof. unfold render_to, join. by destruct (evo_to e). Qed.

Lemma get_or_fetch_answered url st :
  (forall history, is_Some (chain_api w history url)) ->
  exists evo_dict st3, get_or_fetch w url st = (Ok evo_dict, st3).
Proof.
  intros Hchain. destruct (evo_cache st !! url) as [d|] eqn:Hlookup.
  - rewrite (get_or_fetch_hit _ _ _ _ Hlookup). by eexists _, _.
  - rewrite (get_or_fetch_miss _ _ _ Hlookup).
    destruct (Hchain (requests st)) as [chain ->]. by eexists _, _.
Qed.

(** The three answers of an iteration are determined by its state. *)
Lemma receives_functional st id p s evo_dict st3 p' s' evo_dict' st3' :
  receives w st id p s evo_dict st3 ->
  receives w st id p' s' evo_dict' st3' ->
  p' = p /\ s' = s /\ evo_dict' = evo_dict /\ st3' = st3.
Proof.
  intros (Hp & Hs & Hget) (Hp' & Hs' & Hget').
  rewrite Hp in Hp'. injection Hp' as <-.
  rewrite Hs in Hs'. injection Hs' as <-.
  rewrite Hget in Hget'. by injection Hget' as <- <-.
Qed.

(** An iteration ends exactly when it is answered and can write. *)
Lemma process_pokemon_ok_iff id st :
  fst (process_pokemon w id st) = Ok tt <-> iteration_answered w id st.
Proof.
  split.
  - destruct (process_pokemon w id st) as [[[]|e] st'] eqn:Hrun; [|done].
    intros _.
    apply process_pokemon_inv in Hrun
      as (p & s & evo_dict & st3 & Hrec & [Hreq Hwritable] & _).
    by exists p, s, evo_dict, st3.
  - intros (p & s & evo_dict & st3 & Hrec & Hreq & Hwritable).
    by rewrite (process_pokemon_ok w id st p s evo_dict st3).
Qed.

Lemma for_each_app {A} (body : A -> M unit) l1 l2 : forall st,
  for_each (l1 ++ l2) body st
  = bind (for_each l1 body) (fun _ => for_each l2 body) st.
Proof.
  induction l1 as [|x l1 IH]; intros st; simpl; [done|].
  unfold bind. destruct (body x st) as [[[]|e] st1]; [|done].
  by rewrite IH.
Qed.

Lemma range_snoc n :
  range 1 (1 + Z.of_nat (S n))
  = range 1 (1 + Z.of_nat n) ++ [(Z.of_nat n + 1)%Z].
Proof.
  unfold range.
  replace (Z.to_nat (1 + Z.of_nat (S n) - 1)) with (S n) by lia.
  replace (Z.to_nat (1 + Z.of_nat n - 1)) with n by lia.
  rewrite seq_S, map_app. simpl. do 2 f_equal. lia.
Qed.

(** The first [n] iterations end exactly when each of them is answered in
    the state left by the ones before it. *)
Lemma for_each_range_ok_iff n :
  fst (for_each (range 1 (1 + Z.of_nat n)) (process_pokemon w)
         (with_row initial_state header_row)) = Ok tt
  <-> forall k, k < n ->
        iteration_answered w (Z.of_nat k + 1) (state_before w k).
Proof.
  induction n as [|n IH].
  - split; [intros _ k Hk; lia|done].
  - rewrite range_snoc, for_each_app. unfold bind.
    pose proof (process_pokemon_ok_iff (Z.of_nat n + 1) (state_before w n))
      as Hlast.
    unfold state_before in Hlast at 1.
    destruct (for_each (range 1 (1 + Z.of_nat n)) _ _) as [[[]|e] st1];
      simpl in IH, Hlast.
    + assert (Hstep : fst (for_each [(Z.of_nat n + 1)%Z] (process_pokemon w) st1)
                      = Ok tt
                      <-> fst (process_pokemon w (Z.of_nat n + 1) st1) = Ok tt).
      { simpl. unfold bind.
        by destruct (process_pokemon w (Z.of_nat n + 1) st1) as [[[]|e] st2]. }
      rewrite Hstep, Hlast. split.
      * intros Hn k Hk. destruct (decide (k = n)) as [->|Hne]; [done|].
        apply IH; [done|lia].
      * intros Hall. apply Hall. lia.
    + split; [done|]. intros Hall.
      apply IH. intros k Hk. apply Hall. lia.
Qed.

End EndToEnd.

(** X12.  When the species of an iteration that writes its row is named by
    a node of its chain and the names of the chain are pairwise distinct,
    the row has in the column evolution_to the names of the children of
    that node, joined by ", " in source order, and in the column
    evolution_from the name of its parent, or the empty string for the
    root. *)
Theorem evolution_columns_of_node (w : world) (id : Z) (st st' : run_state)
    (p : pokemon_data) (s : species_data) (chain : chain_link)
    (st3 : run_state) (path : list nat) (n : chain_link) :
  receives w st id p s (parse_evolution_chain chain) st3 ->
  process_pokemon w id st = (Ok tt, st') ->
  NoDup (species_names chain) ->
  subtree chain path = Some n ->
  species n = pd_name p ->
  exists row,
    st' = with_row st3 row /\
    column row "evolution_to"
    = Some (CStr (String.concat ", " (map species (evolves_to n)))) /\
    (path = [] -> column row "evolution_from" = Some (CStr "")) /\
    (forall path' i parent,
       path = path' ++ [i] -> subtree chain path' = Some parent ->
       column row "evolution_from" = Some (CStr (species parent))).
Proof.
  intros Hrec Hrun Hnd Hn Hname.
  apply process_pokemon_inv in Hrun
    as (p' & s' & evo_dict' & st3' & Hrec' & _ & ->).
  destruct (receives_functional w _ _ _ _ _ _ _ _ _ _ Hrec Hrec')
    as (-> & -> & -> & ->).
  exists (written_row id p s (parse_evolution_chain chain)).
  split; [reflexivity|].
  unfold written_row, column, evo_details_of. simpl.
  rewrite <- Hname, (parse_evolution_chain_entry chain path n Hnd Hn). simpl.
  rewrite render_to_concat, render_from_default. simpl.
  split; [done|]. split.
  - by intros ->.
  - intros path' i parent -> Hparent.
    by rewrite (predecessor_child path' chain None i parent n Hparent Hn).
Qed.

Lemma evolution_columns_of_node_witness :
  let w := constant_world ivysaur_data bulbasaur_species bulbasaur_chain in
  exists row,
    snd (process_pokemon w 1 initial_state)
    = with_row (writing_state ivysaur_data bulbasaur_species bulbasaur_chain)
        row /\
    column row "evolution_to" = Some (CStr "venusaur") /\
    column row "evolution_from" = Some (CStr "bulbasaur").
Proof.
  intros w.
  destruct (evolution_columns_of_node w 1 initial_state
              (snd (process_pokemon w 1 initial_state))
              ivysaur_data bulbasaur_species bulbasaur_chain
              (writing_state ivysaur_data bulbasaur_species bulbasaur_chain)
              [0] (ChainLink "ivysaur" [ChainLink "venusaur" []]))
    as (row & Hst & Hto & _ & Hfrom).
  - constant_world_inputs.
  - vm_compute. reflexivity.
  - compute_done.
  - reflexivity.
  - reflexivity.
  - exists row. split; [exact Hst|]. split; [exact Hto|].
    exact (Hfrom [] 0 bulbasaur_chain eq_refl eq_refl).
Defined.

(** X13.  The run ends without an exception exactly when each of its 151
    iterations, started in the state that the header and the iterations
    before it have left, is answered its payload, its species and its
    chain (from the cache or by a request), the payload has a type and the
    six statistics, its two divisions by ten do not overflow, and every
    string of the row can be encoded. *)
Theorem main_ends_iff_answered (w : world) :
  fst (main w initial_state) = Ok tt
  <-> forall k, k < 151 ->
        iteration_answered w (Z.of_nat k + 1) (state_before w k).
Proof.
  unfold main.
  rewrite (bind_ok _ _ initial_state tt (with_row initial_state header_row) eq_refl).
  apply (for_each_range_ok_iff w 151).
Qed.

Lemma main_ends_iff_answered_witness :
  fst (main uniform_world initial_state) = Ok tt /\
  iteration_answered uniform_world 151 (state_before uniform_world 150).
Proof.
  assert (Hok : fst (main uniform_world initial_state) = Ok tt)
    by (vm_compute; reflexivity).
  split; [exact Hok|].
  apply (proj1 (main_ends_iff_answered uniform_world) Hok 150). lia.
Defined.
